(** * eslint-plugin-simple-key-sort: the [sort] rule of [src/index.js]

    A shallow embedding of the rule (order predicates, name extraction,
    group segmentation, violation detection, fix planning) followed by the
    properties established about it.

    JavaScript values are modelled as follows.
    - A string is the list of its UTF-16 code units ([jsstring]).
    - A number that the rule computes with (line numbers, ranges, comparator
      results, [minKeys]) is an integer of [Z]; [-0] and [0] are one value.
    - An array is a [list]; [null] is [None].
    - What the host supplies (case folding, collation, the token query of
      [sourceCode]) is an interface, see [Host] and [SourceCode]. *)

From Stdlib Require Import String Ascii.
From Stdlib Require Import List ZArith NArith Lia Bool.
From Stdlib Require Import Permutation Sorted.
Import ListNotations.
Open Scope Z_scope.

(* ------------------------------------------------------------------ *)
(** ** Strings and their relational operators *)

Definition jsstring := list N.

(** The code units of an ASCII literal. *)
Definition str (s : string) : jsstring :=
  map N_of_ascii (list_ascii_of_string s).

(** [a < b], [a > b] and [a <= b] on two strings compare code units from
    the left; a proper prefix is smaller. *)
Definition compareCodeUnits : jsstring -> jsstring -> comparison :=
  list_compare N.compare.

Definition js_lt (a b : jsstring) : bool :=
  match compareCodeUnits a b with Lt => true | _ => false end.

Definition js_gt (a b : jsstring) : bool := js_lt b a.

Definition js_le (a b : jsstring) : bool := negb (js_lt b a).

(* ------------------------------------------------------------------ *)
(** ** What the JavaScript host supplies *)

(** [toLowerCase s] is [s.toLowerCase()]; [localeCompare a b] is
    [a.localeCompare(b, undefined, { numeric: true, caseFirst: "upper" })],
    the only way the rule calls it. *)
Class Host := {
  toLowerCase : jsstring -> jsstring;
  localeCompare : jsstring -> jsstring -> Z
}.

(** ECMA-262 asks a comparison handed to [Array.prototype.sort], and
    [localeCompare] itself, to be consistent: the sign is antisymmetric and
    "not after" is transitive. *)
Definition consistent {A : Type} (cmp : A -> A -> Z) : Prop :=
  (forall a b, Z.sgn (cmp b a) = - Z.sgn (cmp a b)) /\
  (forall a b c, cmp a b <= 0 -> cmp b c <= 0 -> cmp a c <= 0).

(* ------------------------------------------------------------------ *)
(** ** Natural comparison and the order predicates *)

Section Comparator.
Context {host : Host}.

Definition naturalCompare (a b : jsstring) : Z := localeCompare a b.

Definition asc (a b : jsstring) : bool := js_le a b.
Definition ascI (a b : jsstring) : bool := js_le (toLowerCase a) (toLowerCase b).
Definition ascN (a b : jsstring) : bool := naturalCompare a b <=? 0.
Definition ascIN (a b : jsstring) : bool :=
  naturalCompare (toLowerCase a) (toLowerCase b) <=? 0.
Definition desc (a b : jsstring) : bool := asc b a.
Definition descI (a b : jsstring) : bool := ascI b a.
Definition descN (a b : jsstring) : bool := ascN b a.
Definition descIN (a b : jsstring) : bool := ascIN b a.

(** The table [isValidOrders], looked up by property name. *)
Definition isValidOrders (k : string) : option (jsstring -> jsstring -> bool) :=
  if String.eqb k "asc" then Some asc
  else if String.eqb k "ascI" then Some ascI
  else if String.eqb k "ascN" then Some ascN
  else if String.eqb k "ascIN" then Some ascIN
  else if String.eqb k "desc" then Some desc
  else if String.eqb k "descI" then Some descI
  else if String.eqb k "descN" then Some descN
  else if String.eqb k "descIN" then Some descIN
  else None.

Inductive direction := Asc | Desc.

Definition directionName (o : direction) : string :=
  match o with Asc => "asc" | Desc => "desc" end.

(** [makeComparator(order, caseSensitive, natural)]. *)
Definition makeComparator (order : direction) (caseSensitive natural : bool)
  : jsstring -> jsstring -> Z :=
  let normalize := if caseSensitive then (fun s => s) else toLowerCase in
  let direction := match order with Desc => -1 | Asc => 1 end in
  fun a b =>
    let na := normalize a in
    let nb := normalize b in
    if natural then direction * naturalCompare na nb
    else direction * (if js_lt na nb then -1 else if js_gt na nb then 1 else 0).

End Comparator.

(* ------------------------------------------------------------------ *)
(** ** The syntax tree the rule reads *)

Inductive nodeType := Property | SpreadElement | RestElement.

(** The value of a [Literal] key. A number, a regular expression or a
    bigint is carried with the string that [String(value)] gives for it. *)
Inductive literalValue :=
| VString (s : jsstring)
| VBoolean (b : bool)
| VNull
| VNumber (repr : jsstring)
| VObject (repr : jsstring)
| VSymbol.

(** The key expression of a property: an identifier, a literal, or any
    other expression (member access, call, template, ...). *)
Inductive expression :=
| Identifier (name : jsstring)
| Literal (value : literalValue)
| OtherExpression.

(** One element of [node.properties]. [range] is the half-open span of the
    element in the source, [loc] its first and last line, [text] what
    [sourceCode.getText] returns for it (the slice of the source at
    [range]). A spread or rest element has no [computed] and no [key]:
    reading [computed] there gives [undefined], modelled by [false], and
    [key] is never read on it. *)
Record node := mkNode {
  type : nodeType;
  computed : bool;
  key : expression;
  range : Z * Z;
  loc : Z * Z;
  text : jsstring
}.

Definition startLine (n : node) : Z := fst (loc n).
Definition endLine (n : node) : Z := snd (loc n).

(** [original === target] between nodes of one tree. Two distinct nodes of
    a tree differ at least in [range], so the test is equality of the
    records. *)
Definition node_eq_dec (a b : node) : {a = b} + {a <> b}.
Proof.
  repeat decide equality.
Defined.

Definition sameNode (a b : node) : bool :=
  if node_eq_dec a b then true else false.

(** A token or comment between two nodes, with the lines it starts and
    ends on. *)
Record token := mkToken { tokStartLine : Z; tokEndLine : Z }.

(** [sourceCode.getTokensBetween(a, b, { includeComments: true })]. *)
Class SourceCode := {
  getTokensBetween : node -> node -> list token
}.

Definition getText (n : node) : jsstring := text n.

(* ------------------------------------------------------------------ *)
(** ** Name extraction *)

Definition isSymbol (v : literalValue) : bool :=
  match v with VSymbol => true | _ => false end.

(** [String(value)]. *)
Definition String_ (v : literalValue) : jsstring :=
  match v with
  | VString s => s
  | VBoolean true => str "true"
  | VBoolean false => str "false"
  | VNull => str "null"
  | VNumber repr => repr
  | VObject repr => repr
  | VSymbol => str "Symbol()"
  end.

Definition getPropertyName (n : node) : option jsstring :=
  if computed n then
    match key n with
    | Literal value => if negb (isSymbol value) then Some (String_ value) else None
    | _ => None
    end
  else
    match key n with
    | Identifier name => Some name
    | Literal value => Some (String_ value)
    | OtherExpression => None
    end.

(* ------------------------------------------------------------------ *)
(** ** Violation detection *)

(** The test both loops apply at index [i]:
    [names[i - 1] !== null && names[i] !== null &&
     !isValidOrder(names[i - 1], names[i])]. *)
Definition violatesAt (names : list (option jsstring))
    (isValidOrder : jsstring -> jsstring -> bool) (i : nat) : bool :=
  match nth_error names (i - 1), nth_error names i with
  | Some (Some a), Some (Some b) => negb (isValidOrder a b)
  | _, _ => false
  end.

(** The indices [for (let i = 1; i < names.length; i++)] visits. *)
Definition loopIndices (names : list (option jsstring)) : list nat :=
  seq 1 (length names - 1).

Definition areSorted (names : list (option jsstring))
    (isValidOrder : jsstring -> jsstring -> bool) : bool :=
  negb (existsb (violatesAt names isValidOrder) (loopIndices names)).

(** [firstViolationIdx] after its loop: the first index the test holds at,
    or the initial [1]. *)
Definition firstViolationIdx (names : list (option jsstring))
    (isValidOrder : jsstring -> jsstring -> bool) : nat :=
  match find (violatesAt names isValidOrder) (loopIndices names) with
  | Some i => i
  | None => 1%nat
  end.

(* ------------------------------------------------------------------ *)
(** ** [Array.prototype.sort]

    The sort is stable, and for a consistent comparison its result is
    determined: the input reordered so that [cmp] never puts an element
    after its successor, equal elements keeping their order. Insertion
    from the right computes it. *)

Section ArraySort.
Context {A : Type} (cmp : A -> A -> Z).

Fixpoint insertSorted (x : A) (l : list A) : list A :=
  match l with
  | [] => [x]
  | y :: l' => if cmp x y <=? 0 then x :: l else y :: insertSorted x l'
  end.

Fixpoint Array_sort (l : list A) : list A :=
  match l with
  | [] => []
  | x :: l' => insertSorted x (Array_sort l')
  end.

End ArraySort.

(* ------------------------------------------------------------------ *)
(** ** Fix planning *)

(** [fixer.replaceText(node, text)]: replace the source at [node.range]. *)
Record edit := mkEdit { editRange : Z * Z; editText : jsstring }.

Definition replaceText (n : node) (t : jsstring) : edit :=
  {| editRange := range n; editText := t |}.

(** [array.filter(Boolean)] on an array of edits and [null]s. *)
Fixpoint filterBoolean {A : Type} (l : list (option A)) : list A :=
  match l with
  | [] => []
  | Some x :: l' => x :: filterBoolean l'
  | None :: l' => filterBoolean l'
  end.

(** The body of [fix(fixer)]: position by position, [group[i]] against
    [sorted[i]]. *)
Definition fix_ (group sorted : list node) : list edit :=
  filterBoolean
    (map (fun '(original, target) =>
            if sameNode original target then None
            else Some (replaceText original (getText target)))
         (combine group sorted)).

(* ------------------------------------------------------------------ *)
(** ** The rule: options, segmentation, and the visitor *)

(** The options as [create] reads them, defaults applied. *)
Record options := mkOptions {
  order : direction;
  allowLineSeparatedGroups : bool;
  caseSensitive : bool;
  ignoreComputedKeys : bool;
  minKeys : Z;
  natural : bool
}.

Definition defaultOptions : options :=
  {| order := Asc; allowLineSeparatedGroups := false; caseSensitive := true;
     ignoreComputedKeys := false; minKeys := 2; natural := false |}.

(** What [context.report] receives: the node, and the edits its [fix]
    returns. [loc] is the node's [key.loc] and [messageId] is constant. *)
Record report := mkReport { reportNode : node; reportFix : list edit }.

(** What the visitor does with one group: nothing, one report, or a
    [TypeError] were [group[firstViolationIdx]] to be [undefined]. *)
Inductive outcome :=
| NoReport
| Report (r : report)
| TypeError.

Section Rule.
Context {host : Host} {sourceCode : SourceCode}.
Variable opts : options.

Definition insensitive : bool := negb (caseSensitive opts).

Definition orderKey : string :=
  (directionName (order opts) ++ (if insensitive then "I" else EmptyString)
     ++ (if natural opts then "N" else EmptyString))%string.

(** [isValidOrders[orderKey]]; the table has an entry at every key that
    [orderKey] can take (see [isValidOrders_orderKey]). *)
Definition isValidOrder : jsstring -> jsstring -> bool :=
  match isValidOrders orderKey with
  | Some p => p
  | None => fun _ _ => false
  end.

Definition comparator : jsstring -> jsstring -> Z :=
  makeComparator (order opts) (caseSensitive opts) (natural opts).

(** The pairs of lines are: the end of [nodeA] with the start of what
    follows it, each token but the last with the token after it, and the
    last token with [nodeB]. *)
Definition hasBlankLineBetween (nodeA nodeB : node) : bool :=
  let tokens := getTokensBetween nodeA nodeB in
  let pairs :=
    [(endLine nodeA,
      match tokens with t :: _ => tokStartLine t | [] => startLine nodeB end)]
    ++ map (fun '(t, next) => (tokEndLine t, tokStartLine next))
           (combine (removelast tokens) (tl tokens))
    ++ match tokens with
       | t :: _ => [(tokEndLine (last tokens t), startLine nodeB)]
       | [] => []
       end in
  existsb (fun '(end_, start) => 1 <? start - end_) pairs.

Definition isSpread (prop : node) : bool :=
  match type prop with
  | SpreadElement | RestElement => true
  | Property => false
  end.

Definition isIgnoredComputed (prop : node) : bool :=
  ignoreComputedKeys opts && computed prop.

(** One turn of the loop of [splitIntoGroups] on the state
    [(groups, current)]. *)
Definition splitStep (st : list (list node) * list node) (prop : node)
  : list (list node) * list node :=
  let '(groups, current) := st in
  if isSpread prop || isIgnoredComputed prop then
    match current with
    | [] => (groups, current)
    | _ :: _ => (groups ++ [current], [])
    end
  else
    let '(groups, current) :=
      if allowLineSeparatedGroups opts && (0 <? Z.of_nat (length current)) then
        if hasBlankLineBetween (last current prop) prop
        then (groups ++ [current], [])
        else (groups, current)
      else (groups, current) in
    (groups, current ++ [prop]).

Definition splitIntoGroups (properties : list node) : list (list node) :=
  let '(groups, current) := fold_left splitStep properties ([], []) in
  match current with
  | [] => groups
  | _ :: _ => groups ++ [current]
  end.

(** The comparison handed to [sort]. *)
Definition compareProps (a b : node) : Z :=
  match getPropertyName a, getPropertyName b with
  | None, None => 0
  | None, Some _ => 1
  | Some _, None => -1
  | Some na, Some nb => comparator na nb
  end.

Definition sortGroup (group : list node) : list node :=
  Array_sort compareProps group.

(** The body of the loop over the groups. *)
Definition analyzeGroup (group : list node) : outcome :=
  if Z.of_nat (length group) <? minKeys opts then NoReport
  else
    let names := map getPropertyName group in
    if areSorted names isValidOrder then NoReport
    else
      let idx := firstViolationIdx names isValidOrder in
      match nth_error group idx with
      | None => TypeError
      | Some node =>
          let sorted := sortGroup group in
          Report {| reportNode := node; reportFix := fix_ group sorted |}
      end.

(** ["ObjectExpression:exit"(node)], on [node.properties]. *)
Definition checkObject (properties : list node) : list outcome :=
  if Z.of_nat (length properties) <? minKeys opts then []
  else map analyzeGroup (splitIntoGroups properties).

End Rule.

(* ------------------------------------------------------------------ *)
(** ** A reference host

    Modelled from ECMA-402 and the CLDR root collation, not from the
    source: [toLowerCase] and [localeCompare] belong to the engine and are
    absent from [src/]. The rule runs on whatever case folding and
    collation the engine has, and the general results below hold for every
    [Host]. The host defined here stands for an engine built on ICU whose
    default locale orders the letters of ASCII as the root collation does,
    and it stands for it on one range only ([inReferenceRange]): strings
    made of ASCII letters and digits in which no run of digits is longer
    than 254 digits. There [toLowerCase] maps [A-Z] to [a-z], and the
    collation, called with [numeric: true] and [caseFirst: "upper"], first
    compares the strings by primary weights, where a letter weighs the same
    in both cases, a run of digits weighs as the number it writes and
    digits come before letters; strings equal there are compared by case,
    upper case first.

    Outside the range the definitions still give a value, a [Host] being
    total, but not the engine's: the engine compares a longer run of digits
    in segments of 254 digits and has its own order of punctuation, symbols
    and characters beyond ASCII, where the host below reads a run of any
    length as one number and ranks every other code unit by its value,
    below the digits. Nothing is concluded about the engine from the host
    outside the range. *)

Definition isDigit (c : N) : bool := ((48 <=? c) && (c <=? 57))%N.
Definition isUpper (c : N) : bool := ((65 <=? c) && (c <=? 90))%N.
Definition isLower (c : N) : bool := ((97 <=? c) && (c <=? 122))%N.

Definition asciiToLowerCase (s : jsstring) : jsstring :=
  map (fun c => if isUpper c then (c + 32)%N else c) s.

Definition primaryWeight (c : N) : list Z :=
  if isUpper c then [2; Z.of_N (c - 65)]
  else if isLower c then [2; Z.of_N (c - 97)]
  else [0; Z.of_N c].

Definition flushNumber (num : option Z) : list Z :=
  match num with Some v => [1; v] | None => [] end.

(** The primary weights of a string; [num] is the value of the run of
    digits being read, if one is. *)
Fixpoint primaryKey (num : option Z) (s : jsstring) : list Z :=
  match s with
  | [] => flushNumber num
  | c :: s' =>
      if isDigit c then
        primaryKey
          (Some (10 * match num with Some v => v | None => 0 end
                 + Z.of_N (c - 48))) s'
      else flushNumber num ++ primaryWeight c ++ primaryKey None s'
  end.

(** The case weights of a string, one for each letter. *)
Definition caseKey (s : jsstring) : list Z :=
  flat_map (fun c => if isUpper c then [0] else if isLower c then [1] else []) s.

Definition threeWay (c : comparison) : Z :=
  match c with Lt => -1 | Eq => 0 | Gt => 1 end.

Definition compareKeys (k1 k2 : list Z * list Z) : comparison :=
  match list_compare Z.compare (fst k1) (fst k2) with
  | Eq => list_compare Z.compare (snd k1) (snd k2)
  | c => c
  end.

Definition collationKey (s : jsstring) : list Z * list Z :=
  (primaryKey None s, caseKey s).

Definition rootCollation (a b : jsstring) : Z :=
  threeWay (compareKeys (collationKey a) (collationKey b)).

Definition referenceHost : Host :=
  {| toLowerCase := asciiToLowerCase; localeCompare := rootCollation |}.

(* ------------------------------------------------------------------ *)
(** ** The natural comparison as the specification words it

    Each string is split into maximal runs of digits and of other code
    units; runs are compared from the left, two runs of digits by the
    numbers they write and any other two runs code unit by code unit; the
    first pair of runs that differs decides, and a string that runs out
    first sorts first. *)







(** Locale-aware ordering with upper case first, as a predicate "[a] may
    come immediately before [b]". *)
Definition localeAwareUpperFirst (a b : jsstring) : bool :=
  rootCollation a b <=? 0.

(* ------------------------------------------------------------------ *)
(** ** The natural comparison, run by run, as the collation orders runs

    The wording of the specification with one change: runs of letters are
    compared alphabetically whatever the case of the letters, and case
    decides only between strings that are equal run by run. Two runs of
    digits are compared by the numbers they write, two runs of letters
    letter by letter after lower-casing, and a run of digits sorts before a
    run of letters; the first pair of runs that differs decides, and a
    string that runs out first sorts first. Strings equal run by run are
    ordered by the case of their letters: at the first letter that is
    upper case in one and lower case in the other, the upper-case one
    sorts first. *)









(* ------------------------------------------------------------------ *)
(** ** Sample nodes *)

Module Samples.

(** [name: 1] written on line [line] at offset [start]. *)
Definition plain (name : string) (start line : Z) : node :=
  {| type := Property; computed := false; key := Identifier (str name);
     range := (start, start + Z.of_nat (String.length name) + 3);
     loc := (line, line);
     text := str (name ++ ": 1") |}.

(** [['name']: 1], a computed key that is a string literal. *)
Definition computedLiteral (name : string) (start line : Z) : node :=
  {| type := Property; computed := true; key := Literal (VString (str name));
     range := (start, start + Z.of_nat (String.length name) + 7);
     loc := (line, line);
     text := str ("['" ++ name ++ "']: 1") |}.

(** [[name]: 1], a computed key that is an identifier reference. *)
Definition computedDynamic (name : string) (start line : Z) : node :=
  {| type := Property; computed := true; key := Identifier (str name);
     range := (start, start + Z.of_nat (String.length name) + 5);
     loc := (line, line);
     text := str ("[" ++ name ++ "]: 1") |}.

(** A source with one comma between neighbours and nothing else. *)
Definition noTokens : SourceCode := {| getTokensBetween := fun _ _ => [] |}.

(** [{ foo: 1, [dynamicExpr]: 1, bar: 1 }] *)
Definition fooDynBar : list node :=
  [plain "foo" 2 1; computedDynamic "dynamicExpr" 10 1; plain "bar" 28 1].

(** [{ foo: 1, [dynamicExpr]: 1, baz: 1, bar: 1 }] *)
Definition fooDynBazBar : list node :=
  [plain "foo" 2 1; computedDynamic "dynamicExpr" 10 1; plain "baz" 28 1;
   plain "bar" 36 1].

(** [{ ['foo']: 1, ['bar']: 1 }] *)
Definition literalFooBar : list node :=
  [computedLiteral "foo" 2 1; computedLiteral "bar" 14 1].

Definition withIgnoreComputedKeys : options :=
  {| order := Asc; allowLineSeparatedGroups := false; caseSensitive := true;
     ignoreComputedKeys := true; minKeys := 2; natural := false |}.

(** A source where each property is followed by a comma on its last line. *)
Definition commas : SourceCode :=
  {| getTokensBetween := fun a _ => [mkToken (endLine a) (endLine a)] |}.

(** [beta] on line 1, [alpha] on line 2, two blank lines, [y] on line 5
    and [x] on line 6. *)
Definition betaAlphaGapYX : list node :=
  [plain "beta" 4 1; plain "alpha" 17 2; plain "y" 33 5; plain "x" 42 6].

Definition withLineSeparatedGroups : options :=
  {| order := Asc; allowLineSeparatedGroups := true; caseSensitive := true;
     ignoreComputedKeys := false; minKeys := 2; natural := false |}.

(** What [context.report] receives for [fooDynBazBar] under the default
    options. *)
Definition fooDynBazBarReport {host : Host} : report :=
  {| reportNode := plain "bar" 36 1;
     reportFix := fix_ fooDynBazBar (sortGroup defaultOptions fooDynBazBar) |}.

(** [{ bar: 1, baz: 1, foo: 1, [dynamicExpr]: 1 }], which is
    [fooDynBazBar] once fixed and read again. *)
Definition barBazFooDyn : list node :=
  [plain "bar" 2 1; plain "baz" 10 1; plain "foo" 18 1;
   computedDynamic "dynamicExpr" 26 1].

Definition names (l : list string) : list (option jsstring) :=
  map (fun s => Some (str s)) l.

End Samples.

(* ------------------------------------------------------------------ *)
(** ** Vocabulary of the statements *)

(** The options [o] with the direction replaced. *)
Definition withOrder (d : direction) (o : options) : options :=
  {| order := d;
     allowLineSeparatedGroups := allowLineSeparatedGroups o;
     caseSensitive := caseSensitive o;
     ignoreComputedKeys := ignoreComputedKeys o;
     minKeys := minKeys o;
     natural := natural o |}.

(** Index [i] of [names] holds a violation: it has a predecessor, both
    names are defined, and the predicate rejects the pair. *)
Definition violationAt (names : list (option jsstring))
    (isValidOrder : jsstring -> jsstring -> bool) (i : nat) : Prop :=
  (1 <= i)%nat /\
  exists a b, nth_error names (i - 1) = Some (Some a) /\
              nth_error names i = Some (Some b) /\
              isValidOrder a b = false.

(** The lines of what lies from [nodeA] to [nodeB]: the first and last
    line of [nodeA], of every token and comment between the two, and of
    [nodeB], in source order. *)
Definition gapLines {sourceCode : SourceCode} (nodeA nodeB : node)
  : list (Z * Z) :=
  loc nodeA
  :: map (fun t => (tokStartLine t, tokEndLine t)) (getTokensBetween nodeA nodeB)
  ++ [loc nodeB].

(** Somewhere in [spans] an item starts more than one line below the end
    of the item before it. *)
Definition blankLineIn (spans : list (Z * Z)) : Prop :=
  exists i x y, nth_error spans i = Some x /\ nth_error spans (S i) = Some y /\
                1 < fst y - snd x.

(** A property without a static name. *)
Definition unsortable (n : node) : bool :=
  match getPropertyName n with None => true | Some _ => false end.

Definition sortable (n : node) : bool := negb (unsortable n).

(** Two half-open spans share no position. *)
Definition disjoint (r1 r2 : Z * Z) : Prop :=
  snd r1 <= fst r2 \/ snd r2 <= fst r1.

(** The properties of a group as a parser lays them out: each spans at
    least one character and ends before the next one starts. *)
Definition laidOut (group : list node) : Prop :=
  Forall (fun n => fst (range n) < snd (range n)) group /\
  StronglySorted (fun a b => snd (range a) <= fst (range b)) group.

Definition sameRange (r1 r2 : Z * Z) : bool :=
  (fst r1 =? fst r2) && (snd r1 =? snd r2).

(** The text found at the span of [original] once the edits of [plan] are
    applied together to the source: the replacement of the edit at that
    span if there is one, the text of [original] otherwise. *)
Definition textAfter (plan : list edit) (original : node) : jsstring :=
  match find (fun e => sameRange (editRange e) (range original)) plan with
  | Some e => editText e
  | None => text original
  end.

(** Among [ns] the text of a property decides its name, as it does for
    the properties a parser reads off a source. *)
Definition textDeterminesName (ns : list node) : Prop :=
  forall n m, In n ns -> In m ns -> text n = text m ->
              getPropertyName n = getPropertyName m.

(** The comparison handed to [sort], on the names of its arguments. *)
Definition compareNames {host : Host} (o : options)
    (na nb : option jsstring) : Z :=
  match na, nb with
  | None, None => 0
  | None, Some _ => 1
  | Some _, None => -1
  | Some a, Some b => comparator o a b
  end.

(** A property the segmenter keeps: neither a spread nor an ignored
    computed key. *)
Definition keptBySegmenter (o : options) (prop : node) : Prop :=
  isSpread prop = false /\ isIgnoredComputed o prop = false.

(** What holds of the state [(groups, current)] of the segmenter between
    two turns of its loop. *)
Definition segmenterState (o : options) (st : list (list node) * list node)
  : Prop :=
  Forall (fun g => g <> [] /\ Forall (keptBySegmenter o) g) (fst st) /\
  Forall (keptBySegmenter o) (snd st).

(** The test that makes the segmenter close the current group and drop
    the property: [isSpread || isIgnoredComputed]. *)
Definition isSeparator (o : options) (prop : node) : bool :=
  isSpread prop || isIgnoredComputed o prop.

(** Items of a source in the order they are written: none ends before it
    starts, and each ends no later than every later one starts. *)
Definition inSourceOrder (spans : list (Z * Z)) : Prop :=
  Forall (fun s => fst s <= snd s) spans /\
  StronglySorted (fun x y => snd x <= fst y) spans.

(** The predicate with its arguments exchanged. *)
Definition flipped (p : jsstring -> jsstring -> bool) : jsstring -> jsstring -> bool :=
  fun a b => p b a.

(* ================================================================== *)
(** * Properties *)

(* ------------------------------------------------------------------ *)
(** ** Order on code units *)

Lemma N_compare_eq_iff (x y : N) : N.compare x y = Eq <-> x = y.
Proof. apply N.compare_eq_iff. Qed.

Lemma N_compare_opp (x y : N) : N.compare y x = CompOpp (N.compare x y).
Proof. apply N.compare_antisym. Qed.

Lemma N_compare_trans (x y z : N) (c : comparison) :
  N.compare x y = c -> N.compare y z = c -> N.compare x z = c.
Proof.
  destruct c; intros H1 H2.
  - apply N.compare_eq_iff in H1, H2. subst. apply N.compare_refl.
  - rewrite N.compare_lt_iff in *. lia.
  - rewrite N.compare_gt_iff in *. lia.
Qed.

Lemma Z_compare_opp (x y : Z) : Z.compare y x = CompOpp (Z.compare x y).
Proof. apply Z.compare_antisym. Qed.

Lemma Z_compare_trans (x y z : Z) (c : comparison) :
  Z.compare x y = c -> Z.compare y z = c -> Z.compare x z = c.
Proof.
  destruct c; intros H1 H2.
  - apply Z.compare_eq_iff in H1, H2. subst. apply Z.compare_refl.
  - rewrite Z.compare_lt_iff in *. lia.
  - rewrite Z.compare_gt_iff in *. lia.
Qed.

Lemma compareCodeUnits_opp (a b : jsstring) :
  compareCodeUnits b a = CompOpp (compareCodeUnits a b).
Proof.
  apply list_compare_antisym; [apply N_compare_eq_iff | apply N_compare_opp].
Qed.

Lemma compareCodeUnits_trans (a b c : jsstring) (r : comparison) :
  compareCodeUnits a b = r -> compareCodeUnits b c = r ->
  compareCodeUnits a c = r.
Proof.
  apply list_compare_trans;
    [apply N_compare_eq_iff | apply N_compare_trans | apply N_compare_opp].
Qed.

Lemma compareCodeUnits_eq (a b : jsstring) :
  compareCodeUnits a b = Eq <-> a = b.
Proof. apply list_compare_refl, N_compare_eq_iff. Qed.

Lemma js_le_compare (a b : jsstring) :
  js_le a b = match compareCodeUnits a b with Gt => false | _ => true end.
Proof.
  unfold js_le, js_lt. rewrite (compareCodeUnits_opp a b).
  destruct (compareCodeUnits a b); reflexivity.
Qed.

Lemma js_le_app (p a b : jsstring) : js_le (p ++ a) (p ++ b) = js_le a b.
Proof.
  rewrite !js_le_compare. unfold compareCodeUnits.
  rewrite list_compare_app; [reflexivity | apply N_compare_eq_iff].
Qed.

Lemma js_le_cons (x y : N) (s t : jsstring) :
  js_le (x :: s) (y :: t) = if (x =? y)%N then js_le s t else (x <? y)%N.
Proof.
  rewrite !js_le_compare. unfold compareCodeUnits. simpl.
  destruct (N.eqb_spec x y) as [->|Hne].
  - rewrite N.compare_refl. reflexivity.
  - destruct (N.compare_spec x y) as [H|H|H]; [contradiction | |];
      symmetry; [apply N.ltb_lt | apply N.ltb_ge]; lia.
Qed.

(** The three-way result of the plain branch of [makeComparator]. *)
Lemma plain_threeWay (a b : jsstring) :
  (if js_lt a b then -1 else if js_gt a b then 1 else 0)
  = threeWay (compareCodeUnits a b).
Proof.
  unfold js_gt, js_lt. rewrite (compareCodeUnits_opp a b).
  destruct (compareCodeUnits a b); reflexivity.
Qed.

Lemma threeWay_le (c : comparison) : threeWay c <= 0 <-> c <> Gt.
Proof. destruct c; simpl; split; intros; try lia; congruence. Qed.

Lemma threeWay_opp (c : comparison) : threeWay (CompOpp c) = - threeWay c.
Proof. destruct c; reflexivity. Qed.

Lemma threeWay_sgn (c : comparison) : Z.sgn (threeWay c) = threeWay c.
Proof. destruct c; reflexivity. Qed.

(** A three-way comparison read off a [comparison] that is antisymmetric
    and transitive is consistent. *)
Lemma consistent_threeWay {A : Type} (cmp : A -> A -> comparison) :
  (forall a b, cmp b a = CompOpp (cmp a b)) ->
  (forall a b c r, cmp a b = r -> cmp b c = r -> cmp a c = r) ->
  consistent (fun a b => threeWay (cmp a b)).
Proof.
  intros Hopp Htrans. split.
  - intros a b. rewrite !threeWay_sgn, Hopp. apply threeWay_opp.
  - intros a b c. rewrite !threeWay_le. intros Hab Hbc Hac.
    destruct (cmp a b) eqn:Eab; [ | | congruence].
    + destruct (cmp b c) eqn:Ebc; [ | | congruence].
      * rewrite (Htrans a b c Eq Eab Ebc) in Hac. discriminate.
      * assert (Hba : cmp b a = Eq) by (rewrite Hopp, Eab; reflexivity).
        assert (Hca : cmp c a = Lt) by (rewrite Hopp, Hac; reflexivity).
        pose proof (Htrans b c a Lt Ebc Hca) as H. congruence.
    + destruct (cmp b c) eqn:Ebc; [ | | congruence].
      * assert (Hcb : cmp c b = Eq) by (rewrite Hopp, Ebc; reflexivity).
        assert (Hca : cmp c a = Lt) by (rewrite Hopp, Hac; reflexivity).
        pose proof (Htrans c a b Lt Hca Eab) as H. congruence.
      * rewrite (Htrans a b c Lt Eab Ebc) in Hac. discriminate.
Qed.

(* ------------------------------------------------------------------ *)
(** ** The reference host is a lawful host *)

Lemma weights_compare_eq (k1 k2 : list Z) :
  list_compare Z.compare k1 k2 = Eq <-> k1 = k2.
Proof. apply list_compare_refl. intros x y. apply Z.compare_eq_iff. Qed.

Lemma weights_compare_opp (k1 k2 : list Z) :
  list_compare Z.compare k2 k1 = CompOpp (list_compare Z.compare k1 k2).
Proof.
  apply list_compare_antisym; [intros x y; apply Z.compare_eq_iff | apply Z_compare_opp].
Qed.

Lemma weights_compare_trans (k1 k2 k3 : list Z) (r : comparison) :
  list_compare Z.compare k1 k2 = r -> list_compare Z.compare k2 k3 = r ->
  list_compare Z.compare k1 k3 = r.
Proof.
  apply list_compare_trans;
    [intros x y; apply Z.compare_eq_iff | apply Z_compare_trans | apply Z_compare_opp].
Qed.

Lemma compareKeys_opp (k1 k2 : list Z * list Z) :
  compareKeys k2 k1 = CompOpp (compareKeys k1 k2).
Proof.
  unfold compareKeys.
  rewrite (weights_compare_opp (fst k1) (fst k2)),
          (weights_compare_opp (snd k1) (snd k2)).
  destruct (list_compare Z.compare (fst k1) (fst k2)); reflexivity.
Qed.

Lemma compareKeys_trans (k1 k2 k3 : list Z * list Z) (r : comparison) :
  compareKeys k1 k2 = r -> compareKeys k2 k3 = r -> compareKeys k1 k3 = r.
Proof.
  unfold compareKeys.
  destruct (list_compare Z.compare (fst k1) (fst k2)) eqn:E12;
  destruct (list_compare Z.compare (fst k2) (fst k3)) eqn:E23;
  intros H1 H2;
  try (apply weights_compare_eq in E12; rewrite E12);
  try (apply weights_compare_eq in E23; rewrite <- E23);
  try rewrite E12; try rewrite E23;
  try (rewrite (proj2 (weights_compare_eq _ _) eq_refl));
  try (eapply weights_compare_trans; eassumption);
  try congruence.
  - subst r. rewrite (weights_compare_trans _ _ _ Lt E12 E23). reflexivity.
  - subst r. rewrite (weights_compare_trans _ _ _ Gt E12 E23). reflexivity.
Qed.

Lemma rootCollation_consistent : consistent rootCollation.
Proof.
  apply (consistent_threeWay
           (fun a b => compareKeys (collationKey a) (collationKey b))).
  - intros a b. apply compareKeys_opp.
  - intros a b c r. apply compareKeys_trans.
Qed.

Lemma referenceHost_consistent : consistent (@localeCompare referenceHost).
Proof. exact rootCollation_consistent. Qed.

(* ------------------------------------------------------------------ *)
(** ** The table of predicates and the comparator *)

(** Every key that [orderKey] builds names an entry of the table. *)
Lemma isValidOrders_orderKey {host : Host} (o : options) :
  isValidOrders (orderKey o) =
  Some (match order o, caseSensitive o, natural o with
        | Asc, true, false => asc
        | Asc, false, false => ascI
        | Asc, true, true => ascN
        | Asc, false, true => ascIN
        | Desc, true, false => desc
        | Desc, false, false => descI
        | Desc, true, true => descN
        | Desc, false, true => descIN
        end).
Proof.
  unfold orderKey, insensitive.
  destruct (order o), (caseSensitive o), (natural o); reflexivity.
Qed.

Lemma isValidOrder_resolved {host : Host} (o : options) :
  isValidOrder o =
  match order o, caseSensitive o, natural o with
  | Asc, true, false => asc
  | Asc, false, false => ascI
  | Asc, true, true => ascN
  | Asc, false, true => ascIN
  | Desc, true, false => desc
  | Desc, false, false => descI
  | Desc, true, true => descN
  | Desc, false, true => descIN
  end.
Proof. unfold isValidOrder. rewrite isValidOrders_orderKey. reflexivity. Qed.

(** C9. For all strings [a] and [b]: each descending predicate on [(a, b)]
    is the ascending predicate of the same case and natural mode on
    [(b, a)], also when resolved through the table from the options; and
    the comparator built with ["desc"] orders [(a, b)] as the one built
    with ["asc"] orders [(b, a)] (the same sign), the host collation being
    antisymmetric in sign. *)
Theorem descending_mirrors_ascending {host : Host} (a b : jsstring)
    (Hanti : forall x y, Z.sgn (localeCompare y x) = - Z.sgn (localeCompare x y)) :
  (desc a b = asc b a /\ descI a b = ascI b a /\
   descN a b = ascN b a /\ descIN a b = ascIN b a) /\
  (forall o, isValidOrder (withOrder Desc o) a b
             = isValidOrder (withOrder Asc o) b a) /\
  (forall cs nat, Z.sgn (makeComparator Desc cs nat a b)
                  = Z.sgn (makeComparator Asc cs nat b a)).
Proof.
  split; [repeat split | split].
  - intros o. rewrite !isValidOrder_resolved. simpl.
    destruct (caseSensitive o), (natural o); reflexivity.
  - intros cs nat. unfold makeComparator, naturalCompare.
    destruct nat.
    + rewrite Z.mul_1_l, Z.sgn_mul, Hanti. simpl (Z.sgn (-1)). lia.
    + rewrite !plain_threeWay.
      rewrite (compareCodeUnits_opp ((if cs then fun s => s else toLowerCase) a)).
      rewrite threeWay_opp. lia.
Qed.

Lemma descending_mirrors_ascending_witness :
  (forall x y, Z.sgn (@localeCompare referenceHost y x)
               = - Z.sgn (@localeCompare referenceHost x y)) /\
  @descN referenceHost (str "item10") (str "item2") = true /\
  Z.sgn (@makeComparator referenceHost Desc false true (str "B") (str "a")) = -1.
Proof.
  pose proof (@descending_mirrors_ascending referenceHost
                (str "item10") (str "item2")
                (proj1 referenceHost_consistent)) as [[_ [_ [HN _]]] _].
  pose proof (@descending_mirrors_ascending referenceHost
                (str "B") (str "a")
                (proj1 referenceHost_consistent)) as [_ [_ HC]].
  split; [exact (proj1 referenceHost_consistent) | split].
  - rewrite HN. vm_compute. reflexivity.
  - rewrite HC. vm_compute. reflexivity.
Defined.

(* ------------------------------------------------------------------ *)
(** ** Ascending, case-sensitive, not natural *)

Lemma upper_below_lower (u l : N) :
  isUpper u = true -> isLower l = true -> (u <? l)%N = true /\ (u =? l)%N = false.
Proof.
  unfold isUpper, isLower. rewrite !andb_true_iff, !N.leb_le.
  intros [? ?] [? ?]. split; [apply N.ltb_lt | apply N.eqb_neq]; lia.
Qed.

(** C7, as the code has it. Under ascending, case-sensitive, non-natural
    options the predicate is [a <= b] on code units: a prefix may come
    first, and at the first point of difference the smaller code unit
    decides. So an upper-case ASCII letter there sorts before any
    lower-case one; [Bar, foo] is accepted and [foo, Bar] rejected. *)
Theorem asc_is_code_unit_order {host : Host} (o : options)
    (p s t : jsstring) (u l : N)
    (Horder : order o = Asc) (Hcase : caseSensitive o = true)
    (Hnat : natural o = false)
    (Hu : isUpper u = true) (Hl : isLower l = true) :
  (forall a b, isValidOrder o a b = js_le a b) /\
  isValidOrder o p (p ++ s) = true /\
  (forall x y s' t',
      isValidOrder o (p ++ x :: s') (p ++ y :: t')
      = if (x =? y)%N then isValidOrder o s' t' else (x <? y)%N) /\
  isValidOrder o (p ++ u :: s) (p ++ l :: t) = true /\
  isValidOrder o (p ++ l :: s) (p ++ u :: t) = false /\
  areSorted (Samples.names ["Bar"; "foo"]%string) (isValidOrder o) = true /\
  areSorted (Samples.names ["foo"; "Bar"]%string) (isValidOrder o) = false.
Proof.
  assert (Hres : isValidOrder o = asc).
  { rewrite isValidOrder_resolved, Horder, Hcase, Hnat. reflexivity. }
  rewrite Hres. unfold asc.
  destruct (upper_below_lower u l Hu Hl) as [Hlt Hne].
  repeat split.
  - rewrite <- (app_nil_r p) at 1. rewrite js_le_app. destruct s; reflexivity.
  - intros x y s' t'. rewrite js_le_app. apply js_le_cons.
  - rewrite js_le_app, js_le_cons, Hne. exact Hlt.
  - rewrite js_le_app, js_le_cons, N.eqb_sym, Hne.
    apply N.ltb_lt in Hlt. apply N.ltb_ge. lia.
Qed.

Lemma asc_is_code_unit_order_witness :
  @isValidOrder referenceHost defaultOptions
     (str "key" ++ 66%N :: str "ar") (str "key" ++ 98%N :: str "ar") = true /\
  @isValidOrder referenceHost defaultOptions
     (str "key" ++ 98%N :: str "ar") (str "key" ++ 66%N :: str "ar") = false.
Proof.
  pose proof (@asc_is_code_unit_order referenceHost defaultOptions
                (str "key") (str "ar") (str "ar") 66%N 98%N
                eq_refl eq_refl eq_refl eq_refl eq_refl)
    as [_ [_ [_ [H1 [H2 _]]]]].
  split; [exact H1 | exact H2].
Defined.

(** C7, as the specification words it, fails: the predicate accepts
    [Zebra] before [apple], which locale-aware ordering with upper case
    first rejects. *)
Lemma asc_is_not_locale_order :
  @isValidOrder referenceHost defaultOptions (str "Zebra") (str "apple") = true /\
  localeAwareUpperFirst (str "Zebra") (str "apple") = false.
Proof. split; vm_compute; reflexivity. Qed.

(* ------------------------------------------------------------------ *)
(** ** Natural comparison *)














(* ------------------------------------------------------------------ *)
(** ** Violation detection *)

Section Detection.
Variable names : list (option jsstring).
Variable isValidOrder : jsstring -> jsstring -> bool.

Lemma in_loopIndices (i : nat) :
  In i (loopIndices names) <-> (1 <= i < length names)%nat.
Proof. unfold loopIndices. rewrite in_seq. lia. Qed.

Lemma violatesAt_true (i : nat) :
  (1 <= i)%nat ->
  violatesAt names isValidOrder i = true <-> violationAt names isValidOrder i.
Proof.
  intros Hi. unfold violatesAt, violationAt. split.
  - destruct (nth_error names (i - 1)) as [[a|]|] eqn:Ea; try discriminate.
    destruct (nth_error names i) as [[b|]|] eqn:Eb; try discriminate.
    intros H. apply negb_true_iff in H. split; [exact Hi|].
    exists a, b. auto.
  - intros [_ [a [b [-> [-> H]]]]]. rewrite H. reflexivity.
Qed.

Lemma violationAt_in_range (i : nat) :
  violationAt names isValidOrder i -> (1 <= i < length names)%nat.
Proof.
  intros [Hi [a [b [_ [Hb _]]]]]. split; [exact Hi|].
  apply nth_error_Some. congruence.
Qed.

Lemma areSorted_false_iff :
  areSorted names isValidOrder = false <->
  exists i, violationAt names isValidOrder i.
Proof.
  unfold areSorted. rewrite negb_false_iff, existsb_exists. split.
  - intros [i [Hin Hv]]. exists i. apply violatesAt_true; [|exact Hv].
    apply in_loopIndices in Hin. lia.
  - intros [i Hv]. exists i. split.
    + apply in_loopIndices, violationAt_in_range, Hv.
    + apply violatesAt_true; [apply Hv | exact Hv].
Qed.

Lemma areSorted_true_iff :
  areSorted names isValidOrder = true <->
  forall i, ~ violationAt names isValidOrder i.
Proof.
  rewrite <- not_false_iff_true, areSorted_false_iff. split.
  - intros H i Hv. apply H. exists i. exact Hv.
  - intros H [i Hv]. exact (H i Hv).
Qed.

End Detection.

Lemma find_seq_first (f : nat -> bool) (n s i : nat) :
  find f (seq s n) = Some i ->
  (s <= i < s + n)%nat /\ f i = true /\
  forall j, (s <= j < i)%nat -> f j = false.
Proof.
  revert s. induction n as [|n IH]; intros s; simpl; [discriminate|].
  destruct (f s) eqn:Efs.
  - intros [= <-]. repeat split; try lia. exact Efs.
  - intros H. destruct (IH _ H) as [Hr [Hf Hleast]].
    repeat split; try lia; [exact Hf|].
    intros j Hj. destruct (Nat.eq_dec j s) as [->|Hne]; [exact Efs|].
    apply Hleast. lia.
Qed.

Lemma firstViolationIdx_first (names : list (option jsstring))
    (p : jsstring -> jsstring -> bool) :
  areSorted names p = false ->
  violationAt names p (firstViolationIdx names p) /\
  forall j, (j < firstViolationIdx names p)%nat -> ~ violationAt names p j.
Proof.
  intros Hns. unfold firstViolationIdx.
  destruct (find (violatesAt names p) (loopIndices names)) as [i|] eqn:Ef.
  - unfold loopIndices in Ef. apply find_seq_first in Ef.
    destruct Ef as [Hr [Hv Hleast]]. split.
    + apply violatesAt_true; [lia | exact Hv].
    + intros j Hj Hvj. pose proof Hvj as [Hj1 _].
      apply violatesAt_true in Hvj; [|exact Hj1].
      rewrite Hleast in Hvj by lia. discriminate.
  - exfalso. apply areSorted_false_iff in Hns. destruct Hns as [i Hv].
    pose proof (find_none _ _ Ef i) as Hnone.
    rewrite (proj2 (violatesAt_true names p i (proj1 Hv)) Hv) in Hnone.
    specialize (Hnone (proj2 (in_loopIndices names i)
                             (violationAt_in_range names p i Hv))).
    discriminate.
Qed.

(** A pair with an undefined side is no violation. *)
Lemma unsortable_never_violates (names : list (option jsstring))
    (p : jsstring -> jsstring -> bool) (i : nat) :
  nth_error names (i - 1) = Some None \/ nth_error names i = Some None ->
  ~ violationAt names p i.
Proof.
  intros [H|H] [_ [a [b [Ha [Hb _]]]]]; congruence.
Qed.

Lemma violationAt_app_l (xs ys : list (option jsstring))
    (p : jsstring -> jsstring -> bool) (i : nat) :
  violationAt xs p i -> violationAt (xs ++ ys) p i.
Proof.
  intros [Hi [a [b [Ha [Hb Hp]]]]]. split; [exact Hi|]. exists a, b.
  repeat split; [ | | exact Hp];
    rewrite nth_error_app1; try assumption; apply nth_error_Some; congruence.
Qed.

Lemma violationAt_app_r (xs ys : list (option jsstring))
    (p : jsstring -> jsstring -> bool) (i : nat) :
  violationAt ys p i -> violationAt (xs ++ ys) p (length xs + i).
Proof.
  intros [Hi [a [b [Ha [Hb Hp]]]]]. split; [lia|]. exists a, b.
  repeat split; [ | | exact Hp]; rewrite nth_error_app2 by lia.
  - replace (length xs + i - 1 - length xs)%nat with (i - 1)%nat by lia.
    exact Ha.
  - replace (length xs + i - length xs)%nat with i by lia. exact Hb.
Qed.

(** An undefined name cuts detection in two: the names before it and the
    names after it are checked on their own. *)
Lemma areSorted_around_unsortable (xs ys : list (option jsstring))
    (p : jsstring -> jsstring -> bool) :
  areSorted (xs ++ None :: ys) p = areSorted xs p && areSorted ys p.
Proof.
  apply eq_true_iff_eq. rewrite andb_true_iff, !areSorted_true_iff. split.
  - intros H. split; intros i Hv.
    + apply (H i). apply violationAt_app_l. exact Hv.
    + apply (H (length (xs ++ [None]) + i)%nat).
      replace (xs ++ None :: ys) with ((xs ++ [None]) ++ ys)
        by (rewrite <- app_assoc; reflexivity).
      apply violationAt_app_r. exact Hv.
  - intros [Hxs Hys] i [Hi [a [b [Ha [Hb Hp]]]]].
    destruct (Nat.lt_ge_cases i (length xs)) as [Hlt|Hge].
    + apply (Hxs i). split; [exact Hi|]. exists a, b.
      rewrite nth_error_app1 in Ha, Hb by lia. auto.
    + destruct (Nat.eq_dec i (length xs)) as [->|Hne].
      { rewrite nth_error_app2, Nat.sub_diag in Hb by lia. discriminate. }
      destruct (Nat.eq_dec i (S (length xs))) as [->|Hne'].
      { rewrite nth_error_app2 in Ha by lia.
        replace (S (length xs) - 1 - length xs)%nat with 0%nat in Ha by lia.
        discriminate. }
      apply (Hys (i - S (length xs))%nat). split; [lia|]. exists a, b.
      rewrite nth_error_app2 in Ha, Hb by lia.
      replace (i - 1 - length xs)%nat with (S (i - S (length xs) - 1)) in Ha by lia.
      replace (i - length xs)%nat with (S (i - S (length xs))) in Hb by lia.
      simpl in Ha, Hb. auto.
Qed.

(** C5. The detector answers "not sorted" exactly when some index holds a
    violation (a predecessor, both names defined, the pair rejected); the
    anchor is then the first such index. A pair with an undefined side is
    never a violation, and an undefined name does not hide violations
    before or after it: the two sides are checked independently. *)
Theorem detector_reports_first_violation (names : list (option jsstring))
    (p : jsstring -> jsstring -> bool) :
  (areSorted names p = false <-> exists i, violationAt names p i) /\
  (areSorted names p = false ->
     violationAt names p (firstViolationIdx names p) /\
     forall j, (j < firstViolationIdx names p)%nat -> ~ violationAt names p j) /\
  (forall i, nth_error names (i - 1) = Some None \/ nth_error names i = Some None ->
             ~ violationAt names p i) /\
  (forall xs ys, areSorted (xs ++ None :: ys) p = areSorted xs p && areSorted ys p).
Proof.
  split; [apply areSorted_false_iff|].
  split; [apply firstViolationIdx_first|].
  split; [apply unsortable_never_violates|].
  intros xs ys. apply areSorted_around_unsortable.
Qed.

(* ------------------------------------------------------------------ *)
(** ** The reported node *)

(** [group[firstViolationIdx]] is never [undefined]. *)
Lemma analyzeGroup_never_throws {host : Host} (o : options) (group : list node) :
  analyzeGroup o group <> TypeError.
Proof.
  unfold analyzeGroup.
  destruct (Z.of_nat (length group) <? minKeys o); [discriminate|].
  destruct (areSorted (map getPropertyName group) (isValidOrder o)) eqn:Es;
    [discriminate|].
  destruct (firstViolationIdx_first _ _ Es) as [Hv _].
  apply violationAt_in_range in Hv. rewrite length_map in Hv.
  destruct (nth_error group _) eqn:En; [discriminate|].
  apply nth_error_None in En. lia.
Qed.

(** C10. When a group is reported, some index [i >= 1] holds a violation
    (both names defined, the pair rejected), the reported node is
    [group[i]] for the least such [i], and that [i] is what the search
    returns; so the initial value [1] is reported only when index [1]
    holds a violation. *)
Theorem reported_node_is_first_violation {host : Host} (o : options)
    (group : list node) (r : report)
    (Hreport : analyzeGroup o group = Report r) :
  let names := map getPropertyName group in
  exists i,
    (1 <= i)%nat /\
    violationAt names (isValidOrder o) i /\
    (forall j, (j < i)%nat -> ~ violationAt names (isValidOrder o) j) /\
    firstViolationIdx names (isValidOrder o) = i /\
    nth_error group i = Some (reportNode r) /\
    (i = 1%nat -> violationAt names (isValidOrder o) 1).
Proof.
  intros names. unfold analyzeGroup in Hreport. fold names in Hreport.
  destruct (Z.of_nat (length group) <? minKeys o); [discriminate|].
  destruct (areSorted names (isValidOrder o)) eqn:Es; [discriminate|].
  destruct (firstViolationIdx_first _ _ Es) as [Hv Hleast].
  exists (firstViolationIdx names (isValidOrder o)).
  destruct (nth_error group _) eqn:En; [|discriminate].
  injection Hreport as <-. simpl.
  split; [apply Hv|].
  split; [exact Hv|].
  split; [exact Hleast|].
  split; [reflexivity|].
  split; [reflexivity|].
  intros H1. rewrite <- H1. exact Hv.
Qed.

Lemma reported_node_is_first_violation_witness :
  exists i,
    (1 <= i)%nat /\
    nth_error Samples.fooDynBazBar i = Some (Samples.plain "bar" 36 1).
Proof.
  destruct (@reported_node_is_first_violation referenceHost defaultOptions
              Samples.fooDynBazBar
              {| reportNode := Samples.plain "bar" 36 1;
                 reportFix := fix_ Samples.fooDynBazBar
                                (@sortGroup referenceHost defaultOptions
                                            Samples.fooDynBazBar) |}
              eq_refl)
    as [i [Hi [_ [_ [_ [Hn _]]]]]].
  exists i. split; [exact Hi | exact Hn].
Defined.

(* ------------------------------------------------------------------ *)
(** ** Blank lines between properties *)

(** The end of every item of [spans] with the start of the next. *)
Lemma blank_between_neighbours (spans : list (Z * Z)) :
  existsb (fun '(end_, start) => 1 <? start - end_)
          (map (fun '(x, y) => (snd x, fst y)) (combine spans (tl spans))) = true
  <-> blankLineIn spans.
Proof.
  unfold blankLineIn. induction spans as [|x spans IH]; simpl.
  - split; [discriminate|]. intros [i [a [b [H _]]]]. destruct i; discriminate.
  - destruct spans as [|y spans]; simpl.
    + split; [discriminate|]. intros [i [a [b [_ [H _]]]]].
      destruct i; discriminate.
    + rewrite orb_true_iff, Z.ltb_lt. simpl in IH. rewrite IH. split.
      * intros [H|[i [a [b [Ha [Hb H]]]]]].
        -- exists 0%nat, x, y. auto.
        -- exists (S i), a, b. auto.
      * intros [[|i] [a [b [Ha [Hb H]]]]].
        -- injection Ha as <-. injection Hb as <-. left. exact H.
        -- right. exists i, a, b. auto.
Qed.

Lemma token_pairs_are_neighbours (t t0 : token) (ts : list token) (b : Z * Z) :
  map (fun '(t, next) => (tokEndLine t, tokStartLine next))
      (combine (removelast (t :: ts)) ts)
  ++ [(tokEndLine (last (t :: ts) t0), fst b)]
  = map (fun '(x, y) => (snd x, fst y))
        (combine (map (fun t => (tokStartLine t, tokEndLine t)) (t :: ts) ++ [b])
                 (map (fun t => (tokStartLine t, tokEndLine t)) ts ++ [b])).
Proof.
  revert t. induction ts as [|t' ts IH]; intros t.
  - reflexivity.
  - change (removelast (t :: t' :: ts)) with (t :: removelast (t' :: ts)).
    change (last (t :: t' :: ts) t0) with (last (t' :: ts) t0).
    simpl combine. simpl map. simpl app. f_equal. apply IH.
Qed.

Lemma hasBlankLineBetween_iff {sourceCode : SourceCode} (nodeA nodeB : node) :
  hasBlankLineBetween nodeA nodeB = true <-> blankLineIn (gapLines nodeA nodeB).
Proof.
  rewrite <- blank_between_neighbours. unfold hasBlankLineBetween, gapLines.
  destruct (getTokensBetween nodeA nodeB) as [|t ts].
  - reflexivity.
  - cbn [tl]. unfold startLine at 1.
    rewrite (token_pairs_are_neighbours t t ts (loc nodeB)).
    reflexivity.
Qed.

(** C6. With [allowLineSeparatedGroups] on and a non-empty current group,
    a property that is neither a spread nor an ignored computed key closes
    the current group exactly when, from the last property kept to this
    one, some item (either property, or a token or comment between them)
    starts more than one line below the end of the item before it; the
    property then opens the next group, and otherwise joins the current
    one. *)
Theorem blank_line_closes_group {sourceCode : SourceCode} (o : options)
    (groups : list (list node)) (current : list node) (prop : node)
    (Hallow : allowLineSeparatedGroups o = true)
    (Hcurrent : current <> [])
    (Hspread : isSpread prop = false)
    (Hcomputed : isIgnoredComputed o prop = false) :
  let prev := last current prop in
  (splitStep o (groups, current) prop = (groups ++ [current], [prop])
   <-> blankLineIn (gapLines prev prop)) /\
  (splitStep o (groups, current) prop = (groups, current ++ [prop])
   <-> ~ blankLineIn (gapLines prev prop)) /\
  splitStep o (groups, current) prop
  = if hasBlankLineBetween prev prop
    then (groups ++ [current], [prop])
    else (groups, current ++ [prop]).
Proof.
  intros prev.
  assert (Hstep : splitStep o (groups, current) prop
                  = if hasBlankLineBetween prev prop
                    then (groups ++ [current], [prop])
                    else (groups, current ++ [prop])).
  { unfold splitStep. rewrite Hspread, Hcomputed, Hallow. simpl.
    destruct current as [|c cs]; [congruence|].
    replace (0 <? Z.of_nat (length (c :: cs))) with true
      by (symmetry; apply Z.ltb_lt; simpl length; lia).
    fold prev. destruct (hasBlankLineBetween prev prop); reflexivity. }
  rewrite Hstep, <- hasBlankLineBetween_iff.
  assert (Hdiff : (groups ++ [current], [prop]) <> (groups, current ++ [prop])).
  { intros [= _ H]. apply (f_equal (@length node)) in H.
    rewrite length_app in H. destruct current; [congruence|].
    simpl in H. lia. }
  destruct (hasBlankLineBetween prev prop); repeat split; intros; congruence.
Qed.

Lemma blank_line_closes_group_witness :
  @splitStep Samples.commas Samples.withLineSeparatedGroups
     ([], [Samples.plain "beta" 4 1; Samples.plain "alpha" 17 2])
     (Samples.plain "y" 33 5)
  = ([[Samples.plain "beta" 4 1; Samples.plain "alpha" 17 2]],
     [Samples.plain "y" 33 5]).
Proof.
  destruct (@blank_line_closes_group Samples.commas
              Samples.withLineSeparatedGroups []
              [Samples.plain "beta" 4 1; Samples.plain "alpha" 17 2]
              (Samples.plain "y" 33 5)
              eq_refl ltac:(discriminate) eq_refl eq_refl) as [_ [_ H]].
  rewrite H. reflexivity.
Defined.

(* ------------------------------------------------------------------ *)
(** ** Consistent comparisons *)

Lemma consistent_refl {A : Type} (cmp : A -> A -> Z) (a : A) :
  consistent cmp -> cmp a a = 0.
Proof.
  intros [Hanti _]. specialize (Hanti a a).
  destruct (Z.sgn_spec (cmp a a)) as [[? E]|[[? E]|[? E]]]; rewrite E in Hanti; lia.
Qed.

Lemma consistent_flip {A : Type} (cmp : A -> A -> Z) (a b : A) :
  consistent cmp -> (cmp a b <= 0 <-> 0 <= cmp b a).
Proof.
  intros [Hanti _]. specialize (Hanti a b).
  destruct (Z.sgn_spec (cmp a b)) as [[? E]|[[? E]|[? E]]]; rewrite E in Hanti;
  destruct (Z.sgn_spec (cmp b a)) as [[? E']|[[? E']|[? E']]]; rewrite E' in Hanti;
  lia.
Qed.

Lemma consistent_total {A : Type} (cmp : A -> A -> Z) (a b : A) :
  consistent cmp -> 0 < cmp a b -> cmp b a < 0.
Proof.
  intros [Hanti _] H. specialize (Hanti a b).
  destruct (Z.sgn_spec (cmp a b)) as [[? E]|[[? E]|[? E]]]; rewrite E in Hanti;
  destruct (Z.sgn_spec (cmp b a)) as [[? E']|[[? E']|[? E']]]; rewrite E' in Hanti;
  lia.
Qed.

Lemma consistent_equiv {A : Type} (cmp : A -> A -> Z) (a x y : A) :
  consistent cmp -> cmp a x = 0 -> cmp a y = 0 -> cmp x y = 0.
Proof.
  intros Hc Hx Hy. pose proof Hc as [_ Htrans].
  assert (Hxa : cmp x a <= 0) by (apply (consistent_flip cmp x a Hc); lia).
  assert (Hya : cmp y a <= 0) by (apply (consistent_flip cmp y a Hc); lia).
  assert (Hxy : cmp x y <= 0) by (apply (Htrans x a y); lia).
  assert (Hyx : cmp y x <= 0) by (apply (Htrans y a x); lia).
  apply (consistent_flip cmp y x Hc) in Hyx. lia.
Qed.

Lemma consistent_on {A B : Type} (cmp : B -> B -> Z) (f : A -> B) :
  consistent cmp -> consistent (fun a b => cmp (f a) (f b)).
Proof.
  intros [Hanti Htrans]. split.
  - intros a b. apply Hanti.
  - intros a b c. apply Htrans.
Qed.

Lemma consistent_reversed {A : Type} (cmp : A -> A -> Z) :
  consistent cmp -> consistent (fun a b => -1 * cmp a b).
Proof.
  intros Hc. pose proof Hc as [Hanti Htrans]. split.
  - intros a b. rewrite !Z.sgn_mul, Hanti. simpl (Z.sgn (-1)). lia.
  - intros a b c Hab Hbc.
    assert (H1 : cmp b a <= 0) by (apply (consistent_flip cmp b a Hc); lia).
    assert (H2 : cmp c b <= 0) by (apply (consistent_flip cmp c b Hc); lia).
    pose proof (Htrans c b a H2 H1) as H3.
    apply (consistent_flip cmp c a Hc) in H3. lia.
Qed.

Lemma consistent_forward {A : Type} (cmp : A -> A -> Z) :
  consistent cmp -> consistent (fun a b => 1 * cmp a b).
Proof.
  intros [Hanti Htrans]. split.
  - intros a b. rewrite !Z.mul_1_l. apply Hanti.
  - intros a b c. rewrite !Z.mul_1_l. apply Htrans.
Qed.

Lemma compareCodeUnits_consistent :
  consistent (fun a b => threeWay (compareCodeUnits a b)).
Proof.
  apply consistent_threeWay.
  - intros a b. apply compareCodeUnits_opp.
  - intros a b c r. apply compareCodeUnits_trans.
Qed.

Lemma makeComparator_consistent {host : Host} (d : direction) (cs nat : bool) :
  consistent localeCompare -> consistent (makeComparator d cs nat).
Proof.
  intros Hc. unfold makeComparator, naturalCompare.
  set (normalize := if cs then fun s : jsstring => s else toLowerCase).
  destruct nat.
  - destruct d.
    + apply (consistent_forward (fun a b => localeCompare (normalize a) (normalize b))).
      apply (consistent_on localeCompare normalize Hc).
    + apply (consistent_reversed (fun a b => localeCompare (normalize a) (normalize b))).
      apply (consistent_on localeCompare normalize Hc).
  - assert (Hplain : consistent
              (fun a b => if js_lt (normalize a) (normalize b) then -1
                          else if js_gt (normalize a) (normalize b) then 1 else 0)).
    { pose proof (consistent_on _ normalize compareCodeUnits_consistent) as [H1 H2].
      split.
      - intros a b. rewrite !plain_threeWay. apply H1.
      - intros a b c. rewrite !plain_threeWay. apply H2. }
    destruct d.
    + apply (consistent_forward _ Hplain).
    + apply (consistent_reversed _ Hplain).
Qed.

(* ------------------------------------------------------------------ *)
(** ** The sort *)

Section SortFacts.
Context {A : Type} (cmp : A -> A -> Z).

Lemma insertSorted_perm (x : A) (l : list A) :
  Permutation (x :: l) (insertSorted cmp x l).
Proof.
  induction l as [|y l IH]; simpl.
  - apply Permutation_refl.
  - destruct (cmp x y <=? 0).
    + apply Permutation_refl.
    + eapply perm_trans; [apply perm_swap|]. apply perm_skip, IH.
Qed.

Lemma Array_sort_perm (l : list A) : Permutation l (Array_sort cmp l).
Proof.
  induction l as [|x l IH]; simpl.
  - apply perm_nil.
  - eapply perm_trans; [apply perm_skip, IH | apply insertSorted_perm].
Qed.

Lemma Array_sort_length (l : list A) : length (Array_sort cmp l) = length l.
Proof. symmetry. apply Permutation_length, Array_sort_perm. Qed.

Lemma insertSorted_HdRel (z x : A) (l : list A) :
  cmp z x <= 0 -> HdRel (fun a b => cmp a b <= 0) z l ->
  HdRel (fun a b => cmp a b <= 0) z (insertSorted cmp x l).
Proof.
  intros Hzx Hd. destruct l as [|y l]; simpl.
  - constructor. exact Hzx.
  - destruct (cmp x y <=? 0); constructor; [exact Hzx|].
    inversion Hd. assumption.
Qed.

Lemma insertSorted_sorted (x : A) (l : list A) :
  consistent cmp ->
  Sorted (fun a b => cmp a b <= 0) l ->
  Sorted (fun a b => cmp a b <= 0) (insertSorted cmp x l).
Proof.
  intros Hc. induction 1 as [|y l Hs IH Hd]; simpl.
  - repeat constructor.
  - destruct (Z.leb_spec (cmp x y) 0) as [Hle|Hgt].
    + constructor; [constructor; assumption|]. constructor. exact Hle.
    + constructor; [exact IH|]. apply insertSorted_HdRel; [|exact Hd].
      pose proof (consistent_total cmp x y Hc Hgt). lia.
Qed.

Lemma Array_sort_sorted (l : list A) :
  consistent cmp -> Sorted (fun a b => cmp a b <= 0) (Array_sort cmp l).
Proof.
  intros Hc. induction l as [|x l IH]; simpl.
  - constructor.
  - apply insertSorted_sorted; assumption.
Qed.

Lemma Array_sort_strongly_sorted (l : list A) :
  consistent cmp -> StronglySorted (fun a b => cmp a b <= 0) (Array_sort cmp l).
Proof.
  intros Hc. apply Sorted_StronglySorted; [|apply Array_sort_sorted, Hc].
  intros a b c. apply (proj2 Hc).
Qed.

(** Sorting what is sorted changes nothing. *)
Lemma Array_sort_fixpoint (l : list A) :
  Sorted (fun a b => cmp a b <= 0) l -> Array_sort cmp l = l.
Proof.
  induction 1 as [|x l Hs IH Hd]; simpl; [reflexivity|].
  rewrite IH. destruct Hd as [|y l Hxy]; simpl; [reflexivity|].
  apply Z.leb_le in Hxy. rewrite Hxy. reflexivity.
Qed.

(** Stability: the elements that compare equal to [a] keep their order. *)
Lemma insertSorted_stable (a x : A) (l : list A) :
  consistent cmp ->
  filter (fun y => cmp a y =? 0) (insertSorted cmp x l)
  = filter (fun y => cmp a y =? 0) (x :: l).
Proof.
  intros Hc. induction l as [|y l IH]; [reflexivity|].
  simpl insertSorted. destruct (Z.leb_spec (cmp x y) 0) as [Hle|Hgt];
    [reflexivity|].
  simpl filter in *. rewrite IH.
  destruct (Z.eqb_spec (cmp a x) 0) as [Hx|Hx];
  destruct (Z.eqb_spec (cmp a y) 0) as [Hy|Hy]; try reflexivity.
  pose proof (consistent_equiv cmp a x y Hc Hx Hy). lia.
Qed.

Lemma Array_sort_stable (a : A) (l : list A) :
  consistent cmp ->
  filter (fun y => cmp a y =? 0) (Array_sort cmp l)
  = filter (fun y => cmp a y =? 0) l.
Proof.
  intros Hc. induction l as [|x l IH]; [reflexivity|].
  simpl Array_sort. rewrite insertSorted_stable by exact Hc.
  simpl. rewrite IH. reflexivity.
Qed.

Lemma Sorted_neighbours (R : A -> A -> Prop) (l : list A) (i : nat) (x y : A) :
  Sorted R l -> nth_error l i = Some x -> nth_error l (S i) = Some y -> R x y.
Proof.
  intros Hs. revert i. induction Hs as [|z l Hs IH Hd]; intros i Hx Hy.
  - destruct i; discriminate.
  - destruct i as [|i].
    + injection Hx as <-. destruct Hd as [|w l Hzw]; [discriminate|].
      injection Hy as <-. exact Hzw.
    + exact (IH i Hx Hy).
Qed.

End SortFacts.

Lemma Sorted_map {A B : Type} (R : B -> B -> Prop) (f : A -> B) (l : list A) :
  Sorted (fun x y => R (f x) (f y)) l <-> Sorted R (map f l).
Proof.
  induction l as [|x l IH]; simpl.
  - split; constructor.
  - split; intros H; inversion H as [|? ? Hs Hd]; subst; constructor;
      try (apply IH; assumption).
    + destruct Hd; simpl; constructor; assumption.
    + destruct l; simpl in *; constructor. inversion Hd. assumption.
Qed.

(* ------------------------------------------------------------------ *)
(** ** The target order *)

Section TargetOrder.
Context {host : Host}.
Variable o : options.

Lemma compareProps_names (a b : node) :
  compareProps o a b = compareNames o (getPropertyName a) (getPropertyName b).
Proof. reflexivity. Qed.

Lemma comparator_consistent :
  consistent localeCompare -> consistent (comparator o).
Proof. apply makeComparator_consistent. Qed.

Lemma compareNames_consistent :
  consistent localeCompare -> consistent (compareNames o).
Proof.
  intros Hc. pose proof (comparator_consistent Hc) as [Hanti Htrans]. split.
  - intros [a|] [b|]; simpl; try reflexivity. apply Hanti.
  - intros [a|] [b|] [c|]; simpl; try lia. apply Htrans.
Qed.

Lemma compareProps_consistent :
  consistent localeCompare -> consistent (compareProps o).
Proof.
  intros Hc. apply (consistent_on (compareNames o) getPropertyName).
  apply compareNames_consistent, Hc.
Qed.

(** An unsortable property compares after every sortable one. *)
Lemma unsortable_compares_last (a b : node) :
  unsortable a = true -> unsortable b = false ->
  0 < compareProps o a b /\ compareProps o b a < 0.
Proof.
  unfold unsortable, compareProps.
  destruct (getPropertyName a), (getPropertyName b); try discriminate.
  intros _ _. lia.
Qed.

Lemma insertSorted_unsortable (x : node) (named rest : list node) :
  unsortable x = true ->
  Forall (fun n => unsortable n = false) named ->
  Forall (fun n => unsortable n = true) rest ->
  insertSorted (compareProps o) x (named ++ rest) = named ++ x :: rest.
Proof.
  intros Hx Hnamed Hrest. induction Hnamed as [|n named Hn _ IH]; simpl.
  - destruct Hrest as [|u rest Hu _]; [reflexivity|]. simpl.
    unfold compareProps, unsortable in *.
    destruct (getPropertyName x), (getPropertyName u); try discriminate.
    reflexivity.
  - destruct (unsortable_compares_last x n Hx Hn) as [Hgt _].
    destruct (Z.leb_spec (compareProps o x n) 0); [lia|].
    rewrite IH. reflexivity.
Qed.

Lemma insertSorted_sortable (x : node) (named rest : list node) :
  unsortable x = false ->
  Forall (fun n => unsortable n = true) rest ->
  insertSorted (compareProps o) x (named ++ rest)
  = insertSorted (compareProps o) x named ++ rest.
Proof.
  intros Hx Hrest. induction named as [|n named IH]; simpl.
  - destruct Hrest as [|u rest Hu _]; [reflexivity|]. simpl.
    destruct (unsortable_compares_last u x Hu Hx) as [_ Hlt].
    destruct (Z.leb_spec (compareProps o x u) 0); [reflexivity | lia].
  - destruct (compareProps o x n <=? 0); [reflexivity|].
    rewrite IH. reflexivity.
Qed.

Lemma Forall_filter_true {A : Type} (f : A -> bool) (l : list A) :
  Forall (fun n => f n = true) (filter f l).
Proof. apply Forall_forall. intros n Hin. apply filter_In in Hin. apply Hin. Qed.

(** The target order is the sortable properties sorted, followed by the
    unsortable ones as they stood. *)
Lemma sortGroup_split (group : list node) :
  sortGroup o group
  = Array_sort (compareProps o) (filter sortable group)
    ++ filter unsortable group.
Proof.
  unfold sortGroup. induction group as [|x group IH]; [reflexivity|].
  simpl Array_sort. rewrite IH. unfold sortable. simpl filter.
  destruct (unsortable x) eqn:Hx; simpl negb; cbv iota.
  - apply insertSorted_unsortable; [exact Hx | | apply Forall_filter_true].
    apply Forall_forall. intros n Hin.
    apply (Permutation_in _ (Permutation_sym (Array_sort_perm _ _))) in Hin.
    apply filter_In in Hin. destruct Hin as [_ Hn].
    apply negb_true_iff in Hn. exact Hn.
  - apply insertSorted_sortable; [exact Hx | apply Forall_filter_true].
Qed.

End TargetOrder.

(** C3, as the code has it. For every group, violating or not, the order
    the planner computes is a permutation of the group; it is sorted for
    the comparison on names, in which an unsortable property compares
    after every sortable one; properties that compare equal keep their
    order; so the result is the sortable properties sorted, followed by
    the unsortable ones as they stood. The sort takes
    [foo, [dynamicExpr], bar] to [bar, foo, [dynamicExpr]], but the
    detector finds that group sorted and nothing is reported for it; the
    violating group [foo, [dynamicExpr], baz, bar] is reported and its
    target is [bar, baz, foo, [dynamicExpr]]. *)
Theorem target_order_is_stable_permutation {host : Host} (o : options)
    (group : list node) (Hhost : consistent localeCompare) :
  let sorted := sortGroup o group in
  Permutation group sorted /\
  StronglySorted (fun a b => compareProps o a b <= 0) sorted /\
  (forall x, filter (fun y => compareProps o x y =? 0) sorted
             = filter (fun y => compareProps o x y =? 0) group) /\
  (forall a b, unsortable a = true -> unsortable b = false ->
               0 < compareProps o a b /\ compareProps o b a < 0) /\
  sorted = Array_sort (compareProps o) (filter sortable group)
           ++ filter unsortable group /\
  sortGroup defaultOptions Samples.fooDynBar
  = [Samples.plain "bar" 28 1; Samples.plain "foo" 2 1;
     Samples.computedDynamic "dynamicExpr" 10 1] /\
  analyzeGroup defaultOptions Samples.fooDynBar = NoReport /\
  (exists r, analyzeGroup defaultOptions Samples.fooDynBazBar = Report r) /\
  sortGroup defaultOptions Samples.fooDynBazBar
  = [Samples.plain "bar" 36 1; Samples.plain "baz" 28 1; Samples.plain "foo" 2 1;
     Samples.computedDynamic "dynamicExpr" 10 1].
Proof.
  intros sorted. unfold sorted, sortGroup.
  pose proof (compareProps_consistent o Hhost) as Hc.
  split; [apply Array_sort_perm|].
  split; [apply Array_sort_strongly_sorted, Hc|].
  split; [intros x; apply Array_sort_stable, Hc|].
  split; [apply unsortable_compares_last|].
  split; [apply sortGroup_split|].
  split; [vm_compute; reflexivity|].
  split; [vm_compute; reflexivity|].
  split; [eexists; vm_compute; reflexivity|].
  vm_compute; reflexivity.
Qed.

Lemma target_order_is_stable_permutation_witness :
  consistent (@localeCompare referenceHost) /\
  Permutation Samples.fooDynBazBar
              (@sortGroup referenceHost defaultOptions Samples.fooDynBazBar).
Proof.
  split; [exact referenceHost_consistent|].
  exact (proj1 (@target_order_is_stable_permutation referenceHost defaultOptions
                  Samples.fooDynBazBar referenceHost_consistent)).
Defined.

(** C3, as the specification words it, fails on its own example: the
    group [foo, [dynamicExpr], bar] is not a violating group, so no target
    order is computed for it and it stays as it is. *)
Lemma unsortable_example_is_not_reported :
  ~ exists r, @analyzeGroup referenceHost defaultOptions Samples.fooDynBar = Report r.
Proof. intros [r H]. vm_compute in H. discriminate. Qed.

(* ------------------------------------------------------------------ *)
(** ** The fix plan *)

Lemma sameNode_true (a b : node) : sameNode a b = true <-> a = b.
Proof.
  unfold sameNode. destruct (node_eq_dec a b); split; congruence.
Qed.

Lemma sameRange_true (r1 r2 : Z * Z) : sameRange r1 r2 = true <-> r1 = r2.
Proof.
  unfold sameRange. destruct r1, r2. simpl.
  rewrite andb_true_iff, !Z.eqb_eq. split; [intros [-> ->] | intros [= -> ->]]; auto.
Qed.

(** The edits of a plan, one for each position where the group and its
    target hold different nodes. *)
Lemma in_fix_iff (group sorted : list node) (e : edit) :
  In e (fix_ group sorted) <->
  exists i original target,
    nth_error group i = Some original /\ nth_error sorted i = Some target /\
    original <> target /\ e = replaceText original (getText target).
Proof.
  unfold fix_. revert sorted.
  induction group as [|x group IH]; intros sorted; simpl.
  - split; [contradiction|]. intros [i [a [b [H _]]]]. destruct i; discriminate.
  - destruct sorted as [|y sorted]; simpl.
    + split; [contradiction|]. intros [i [a [b [_ [H _]]]]].
      destruct i; discriminate.
    + destruct (sameNode x y) eqn:Exy; simpl; rewrite IH.
      * apply sameNode_true in Exy. split.
        -- intros [i [a [b H]]]. exists (S i), a, b. exact H.
        -- intros [[|i] [a [b [Ha [Hb [Hne He]]]]]].
           ++ simpl in Ha, Hb. congruence.
           ++ exists i, a, b. auto.
      * assert (Hne : x <> y).
        { intros H. apply sameNode_true in H. congruence. }
        split.
        -- intros [<-|[i [a [b H]]]].
           ++ exists 0%nat, x, y. auto.
           ++ exists (S i), a, b. exact H.
        -- intros [[|i] [a [b [Ha [Hb [Hab He]]]]]].
           ++ simpl in Ha, Hb. left. congruence.
           ++ right. exists i, a, b. auto.
Qed.

Lemma fix_unchanged (group : list node) : fix_ group group = [].
Proof.
  unfold fix_. induction group as [|x group IH]; [reflexivity|].
  simpl. rewrite (proj2 (sameNode_true x x) eq_refl). exact IH.
Qed.

Lemma StronglySorted_nth {A : Type} (R : A -> A -> Prop) (l : list A)
    (i j : nat) (x y : A) :
  StronglySorted R l -> (i < j)%nat ->
  nth_error l i = Some x -> nth_error l j = Some y -> R x y.
Proof.
  intros Hs. revert i j. induction Hs as [|z l Hs IH Hall]; intros i j Hij Hx Hy.
  - destruct i; discriminate.
  - destruct j as [|j]; [lia|]. destruct i as [|i].
    + injection Hx as <-. simpl in Hy.
      rewrite Forall_forall in Hall. apply Hall. eapply nth_error_In, Hy.
    + apply (IH i j); [lia | exact Hx | exact Hy].
Qed.

(** In a group laid out by the parser a span belongs to one position. *)
Lemma laidOut_range_position (group : list node) (i j : nat) (n m : node) :
  laidOut group ->
  nth_error group i = Some n -> nth_error group j = Some m ->
  range n = range m -> i = j.
Proof.
  intros [Hpos Hord] Hn Hm Heq.
  rewrite Forall_forall in Hpos.
  pose proof (Hpos n (nth_error_In _ _ Hn)) as Hn'.
  pose proof (Hpos m (nth_error_In _ _ Hm)) as Hm'.
  destruct (Nat.lt_trichotomy i j) as [Hlt|[Heq'|Hgt]]; [ | exact Heq' | ].
  - pose proof (StronglySorted_nth _ _ _ _ _ _ Hord Hlt Hn Hm) as H.
    simpl in H. rewrite Heq in *. lia.
  - pose proof (StronglySorted_nth _ _ _ _ _ _ Hord Hgt Hm Hn) as H.
    simpl in H. rewrite Heq in *. lia.
Qed.

Lemma fix_spans_disjoint (group sorted : list node) :
  laidOut group ->
  ForallOrdPairs (fun e1 e2 => disjoint (editRange e1) (editRange e2))
                 (fix_ group sorted).
Proof.
  intros [Hpos Hord]. revert sorted.
  induction Hord as [|x group Hord IH Hall]; intros sorted.
  - constructor.
  - apply Forall_cons_iff in Hpos. destruct Hpos as [_ Hpos].
    destruct sorted as [|y sorted]; [constructor|].
    assert (Htail : ForallOrdPairs
                      (fun e1 e2 => disjoint (editRange e1) (editRange e2))
                      (fix_ group sorted)) by (apply IH; exact Hpos).
    unfold fix_ in *. simpl. destruct (sameNode x y); simpl; [exact Htail|].
    constructor; [|exact Htail].
    apply Forall_forall. intros e He.
    apply (in_fix_iff group sorted e) in He.
    destruct He as [i [a [b [Ha [_ [_ ->]]]]]].
    left. simpl. rewrite Forall_forall in Hall.
    apply Hall. eapply nth_error_In, Ha.
Qed.

(** C4. Every edit of an emitted plan replaces the span of exactly one
    property of the group, at a position where the target is another node,
    by the text of that target; no two spans of a plan share a position of
    the source; and where the group and its target hold the same node the
    plan has no edit for the span of that node. The group is laid out as a
    parser does: non-empty spans, one after the other. *)
Theorem fix_plan_spans_are_original_and_disjoint {host : Host} (o : options)
    (group : list node) (r : report)
    (Hlayout : laidOut group)
    (Hreport : analyzeGroup o group = Report r) :
  let sorted := sortGroup o group in
  (forall e, In e (reportFix r) ->
     exists i original target,
       nth_error group i = Some original /\
       nth_error sorted i = Some target /\
       original <> target /\
       editRange e = range original /\
       editText e = getText target /\
       forall j n, nth_error group j = Some n -> range n = editRange e -> j = i) /\
  ForallOrdPairs (fun e1 e2 => disjoint (editRange e1) (editRange e2))
                 (reportFix r) /\
  (forall i n, nth_error group i = Some n -> nth_error sorted i = Some n ->
               forall e, In e (reportFix r) -> editRange e <> range n).
Proof.
  intros sorted.
  assert (Hfix : reportFix r = fix_ group sorted).
  { unfold analyzeGroup in Hreport.
    destruct (Z.of_nat (length group) <? minKeys o); [discriminate|].
    destruct (areSorted _ _); [discriminate|].
    destruct (nth_error group _); [|discriminate].
    injection Hreport as <-. reflexivity. }
  rewrite Hfix. split; [|split].
  - intros e He. apply in_fix_iff in He.
    destruct He as [i [a [b [Ha [Hb [Hne ->]]]]]].
    exists i, a, b. repeat split; try assumption.
    intros j n Hn Hr. simpl in Hr.
    exact (laidOut_range_position group j i n a Hlayout Hn Ha Hr).
  - apply fix_spans_disjoint, Hlayout.
  - intros i n Hn Hs e He Hr. apply in_fix_iff in He.
    destruct He as [j [a [b [Ha [Hb [Hne ->]]]]]]. simpl in Hr.
    pose proof (laidOut_range_position group j i a n Hlayout Ha Hn Hr) as ->.
    congruence.
Qed.

Lemma fix_plan_spans_are_original_and_disjoint_witness :
  laidOut Samples.fooDynBazBar /\
  ForallOrdPairs (fun e1 e2 => disjoint (editRange e1) (editRange e2))
                 (reportFix (@Samples.fooDynBazBarReport referenceHost)).
Proof.
  assert (Hlayout : laidOut Samples.fooDynBazBar).
  { split; repeat constructor; simpl; lia. }
  split; [exact Hlayout|].
  exact (proj1 (proj2 (@fix_plan_spans_are_original_and_disjoint referenceHost
                         defaultOptions Samples.fooDynBazBar
                         Samples.fooDynBazBarReport Hlayout eq_refl))).
Defined.

(* ------------------------------------------------------------------ *)
(** ** Fixing once is enough *)

Section Idempotence.
Context {host : Host}.
Variable o : options.
Hypothesis Hhost : consistent localeCompare.

(** The comparator and the predicate of the same options agree. *)
Lemma comparator_le_isValidOrder (a b : jsstring) :
  comparator o a b <= 0 <-> isValidOrder o a b = true.
Proof.
  rewrite isValidOrder_resolved. unfold comparator, makeComparator.
  unfold asc, ascI, ascN, ascIN, desc, descI, descN, descIN, asc, ascI, ascN, ascIN.
  unfold naturalCompare.
  destruct (order o), (caseSensitive o), (natural o);
    rewrite ?plain_threeWay, ?js_le_compare, ?Z.leb_le, ?Z.mul_1_l.
  all: try reflexivity.
  all: try (rewrite (consistent_flip localeCompare _ _ Hhost); lia).
  all: try match goal with
           | |- context [compareCodeUnits ?y ?x] =>
               match goal with
               | |- context [threeWay (compareCodeUnits x y)] =>
                   rewrite (compareCodeUnits_opp x y)
               end
           end.
  all: match goal with
       | |- context [compareCodeUnits ?x ?y] =>
           destruct (compareCodeUnits x y); simpl; split; intros; try lia;
           try reflexivity; try discriminate
       end.
Qed.

Lemma sorted_names_are_valid (l : list node) :
  Sorted (fun a b => compareProps o a b <= 0) l ->
  areSorted (map getPropertyName l) (isValidOrder o) = true.
Proof.
  intros Hs. apply areSorted_true_iff.
  intros i [Hi [a [b [Ha [Hb Hp]]]]].
  rewrite nth_error_map in Ha, Hb.
  destruct (nth_error l (i - 1)) as [x|] eqn:Ex; [|discriminate].
  destruct (nth_error l i) as [y|] eqn:Ey; [|discriminate].
  simpl in Ha, Hb. injection Ha as Ha. injection Hb as Hb.
  replace i with (S (i - 1)) in Ey by lia.
  pose proof (Sorted_neighbours _ _ _ _ _ Hs Ex Ey) as Hxy.
  simpl in Hxy. unfold compareProps in Hxy. rewrite Ha, Hb in Hxy.
  apply comparator_le_isValidOrder in Hxy. congruence.
Qed.

Lemma sorted_by_names (l l' : list node) :
  map getPropertyName l' = map getPropertyName l ->
  Sorted (fun a b => compareProps o a b <= 0) l ->
  Sorted (fun a b => compareProps o a b <= 0) l'.
Proof.
  intros Hnames Hs.
  apply (Sorted_map (fun na nb => compareNames o na nb <= 0) getPropertyName l').
  rewrite Hnames.
  apply (Sorted_map (fun na nb => compareNames o na nb <= 0) getPropertyName l).
  exact Hs.
Qed.

End Idempotence.

Lemma map_eq_transfer {A B C : Type} (f : A -> B) (g : A -> C) (l1 l2 : list A) :
  map f l1 = map f l2 ->
  (forall x y, In x l1 -> In y l2 -> f x = f y -> g x = g y) ->
  map g l1 = map g l2.
Proof.
  revert l2. induction l1 as [|x l1 IH]; intros [|y l2]; simpl; try discriminate.
  - reflexivity.
  - intros [= Hxy Hrest] H. f_equal.
    + apply H; auto.
    + apply IH; [exact Hrest|]. intros; apply H; auto.
Qed.

(** Applied together, the edits of the plan leave at each span of the
    group the text of the target at that position. *)
Lemma textAfter_fix (group sorted : list node) (i : nat) (original target : node) :
  laidOut group ->
  nth_error group i = Some original -> nth_error sorted i = Some target ->
  textAfter (fix_ group sorted) original = text target.
Proof.
  intros Hlayout Ho Ht. unfold textAfter.
  destruct (find _ (fix_ group sorted)) as [e|] eqn:Ef.
  - apply find_some in Ef. destruct Ef as [Hin Hr].
    apply sameRange_true in Hr. apply in_fix_iff in Hin.
    destruct Hin as [j [a [b [Ha [Hb [Hne ->]]]]]]. simpl in *.
    pose proof (laidOut_range_position group j i a original Hlayout Ha Ho Hr) as ->.
    unfold getText. congruence.
  - destruct (node_eq_dec original target) as [->|Hne]; [reflexivity|].
    exfalso.
    pose proof (find_none _ _ Ef (replaceText original (getText target))) as H.
    simpl in H. rewrite (proj2 (sameRange_true _ _) eq_refl) in H.
    assert (Hin : In (replaceText original (getText target)) (fix_ group sorted)).
    { apply in_fix_iff. exists i, original, target. auto. }
    specialize (H Hin). discriminate.
Qed.

Lemma texts_after_fix (group sorted : list node) :
  laidOut group -> length sorted = length group ->
  map (textAfter (fix_ group sorted)) group = map text sorted.
Proof.
  intros Hlayout Hlen. apply nth_error_ext. intros i.
  rewrite !nth_error_map.
  destruct (nth_error group i) as [a|] eqn:Ea.
  - destruct (nth_error sorted i) as [b|] eqn:Eb.
    + simpl. f_equal. apply (textAfter_fix group sorted i); assumption.
    + apply nth_error_None in Eb.
      assert (i < length group)%nat by (apply nth_error_Some; congruence). lia.
  - apply nth_error_None in Ea.
    destruct (nth_error sorted i) as [b|] eqn:Eb; [|reflexivity].
    assert (i < length sorted)%nat by (apply nth_error_Some; congruence). lia.
Qed.

(** C2. Take a violating group, laid out as a parser does, apply the
    edits of its report together, and read the properties again: each new
    property carries the text the edits left at its position, and text
    decides names. Then the detector finds the new group sorted, nothing
    is reported for it, its target order is the group itself and the plan
    computed from it is empty. The host collation is consistent. *)
Theorem fix_is_idempotent {host : Host} (o : options)
    (group group' : list node) (r : report)
    (Hhost : consistent localeCompare)
    (Hlayout : laidOut group)
    (Hreport : analyzeGroup o group = Report r)
    (Happlied : map text group' = map (textAfter (reportFix r)) group)
    (Hparse : textDeterminesName (group ++ group')) :
  areSorted (map getPropertyName group') (isValidOrder o) = true /\
  analyzeGroup o group' = NoReport /\
  sortGroup o group' = group' /\
  fix_ group' (sortGroup o group') = [].
Proof.
  assert (Hfix : reportFix r = fix_ group (sortGroup o group)).
  { unfold analyzeGroup in Hreport.
    destruct (Z.of_nat (length group) <? minKeys o); [discriminate|].
    destruct (areSorted _ _); [discriminate|].
    destruct (nth_error group _); [|discriminate].
    injection Hreport as <-. reflexivity. }
  pose proof (compareProps_consistent o Hhost) as Hc.
  pose proof (Array_sort_perm (compareProps o) group) as Hperm.
  pose proof (Array_sort_sorted (compareProps o) group Hc) as Hsorted.
  fold (sortGroup o group) in Hperm, Hsorted.
  rewrite Hfix, texts_after_fix in Happlied;
    [ | exact Hlayout | symmetry; apply Permutation_length, Hperm].
  assert (Hnames : map getPropertyName group'
                   = map getPropertyName (sortGroup o group)).
  { apply (map_eq_transfer text getPropertyName); [exact Happlied|].
    intros x y Hx Hy. apply Hparse; apply in_or_app; [right; exact Hx|].
    left. apply (Permutation_in _ (Permutation_sym Hperm)). exact Hy. }
  assert (Hvalid : areSorted (map getPropertyName group') (isValidOrder o) = true).
  { rewrite Hnames. apply sorted_names_are_valid; assumption. }
  assert (Hself : sortGroup o group' = group').
  { apply Array_sort_fixpoint. apply (sorted_by_names o (sortGroup o group));
      assumption. }
  split; [exact Hvalid|]. split; [|split; [exact Hself|]].
  - unfold analyzeGroup. rewrite Hvalid.
    destruct (Z.of_nat (length group') <? minKeys o); reflexivity.
  - rewrite Hself. apply fix_unchanged.
Qed.

Lemma fix_is_idempotent_witness :
  @analyzeGroup referenceHost defaultOptions Samples.fooDynBazBar
  = Report (@Samples.fooDynBazBarReport referenceHost) /\
  map text Samples.barBazFooDyn
  = map (textAfter (reportFix (@Samples.fooDynBazBarReport referenceHost)))
        Samples.fooDynBazBar /\
  @analyzeGroup referenceHost defaultOptions Samples.barBazFooDyn = NoReport.
Proof.
  assert (Hlayout : laidOut Samples.fooDynBazBar).
  { split; repeat constructor; simpl; lia. }
  assert (Hparse : textDeterminesName (Samples.fooDynBazBar ++ Samples.barBazFooDyn)).
  { intros n m Hn Hm Ht. simpl in Hn, Hm.
    repeat (destruct Hn as [<-|Hn]; [|]); try contradiction;
    repeat (destruct Hm as [<-|Hm]; [|]); try contradiction;
    first [reflexivity | discriminate Ht]. }
  split; [reflexivity|]. split; [reflexivity|].
  exact (proj1 (proj2 (@fix_is_idempotent referenceHost defaultOptions
                         Samples.fooDynBazBar Samples.barBazFooDyn
                         (@Samples.fooDynBazBarReport referenceHost)
                         referenceHost_consistent Hlayout eq_refl eq_refl Hparse))).
Defined.

(* ------------------------------------------------------------------ *)
(** ** Computed keys under [ignoreComputedKeys] *)

(** With [ignoreComputedKeys] on, any computed property closes the current
    group and is dropped, whatever its key. *)
Lemma computed_property_closes_group {sourceCode : SourceCode} (o : options)
    (groups : list (list node)) (current : list node) (prop : node) :
  ignoreComputedKeys o = true -> computed prop = true ->
  splitStep o (groups, current) prop
  = match current with
    | [] => (groups, [])
    | _ :: _ => (groups ++ [current], [])
    end.
Proof.
  intros Hi Hc. unfold splitStep, isIgnoredComputed. rewrite Hi, Hc.
  rewrite orb_true_r. destruct current; reflexivity.
Qed.

(** C1, on the code. In [{ ['foo']: 1, ['bar']: 1 }] both keys are
    computed literals and have the static names [foo] and [bar]. With
    [ignoreComputedKeys] on, the segmenter drops both, no group is left
    and nothing is reported, while with the option off the same object is
    one group and is reported; so a computed literal key is a boundary
    there, not a member of the current group. *)
Theorem computed_literal_key_is_dropped :
  map getPropertyName Samples.literalFooBar
  = [Some (str "foo"); Some (str "bar")] /\
  @splitIntoGroups Samples.noTokens Samples.withIgnoreComputedKeys
     Samples.literalFooBar = [] /\
  @checkObject referenceHost Samples.noTokens Samples.withIgnoreComputedKeys
     Samples.literalFooBar = [] /\
  @splitIntoGroups Samples.noTokens defaultOptions Samples.literalFooBar
  = [Samples.literalFooBar] /\
  (exists r, @checkObject referenceHost Samples.noTokens defaultOptions
               Samples.literalFooBar = [Report r]).
Proof.
  repeat split; try (vm_compute; reflexivity).
  eexists. vm_compute. reflexivity.
Qed.

(* ------------------------------------------------------------------ *)
(** ** What the segmenter emits *)

Section Segmentation.
Context {sourceCode : SourceCode}.
Variable o : options.

Lemma splitStep_wellFormed (st : list (list node) * list node) (prop : node) :
  segmenterState o st -> segmenterState o (splitStep o st prop).
Proof.
  destruct st as [groups current]. intros [Hg Hc]. simpl in Hg, Hc.
  assert (Hclose : current <> [] ->
                   Forall (fun g => g <> [] /\ Forall (keptBySegmenter o) g)
                          (groups ++ [current])).
  { intros Hne. apply Forall_app. split; [exact Hg|].
    constructor; [split; assumption | constructor]. }
  assert (Hjoin : keptBySegmenter o prop ->
                  Forall (keptBySegmenter o) (current ++ [prop])).
  { intros Hp. apply Forall_app. split; [exact Hc|].
    constructor; [exact Hp | constructor]. }
  unfold splitStep.
  destruct (isSpread prop || isIgnoredComputed o prop) eqn:Eclose.
  - destruct current as [|c cs]; split; simpl; auto.
    apply Hclose. discriminate.
  - apply orb_false_iff in Eclose.
    destruct (allowLineSeparatedGroups o && (0 <? Z.of_nat (length current))) eqn:Egap;
      [destruct (hasBlankLineBetween (last current prop) prop)|].
    + split; simpl.
      * apply Hclose. intros ->. rewrite andb_false_r in Egap. discriminate.
      * constructor; [exact Eclose | constructor].
    + split; simpl; [exact Hg | exact (Hjoin Eclose)].
    + split; simpl; [exact Hg | exact (Hjoin Eclose)].
Qed.

Lemma fold_splitStep_wellFormed (properties : list node)
    (st : list (list node) * list node) :
  segmenterState o st -> segmenterState o (fold_left (splitStep o) properties st).
Proof.
  revert st. induction properties as [|prop properties IH]; intros st Hst.
  - exact Hst.
  - simpl. apply IH, splitStep_wellFormed, Hst.
Qed.

(** No group is empty and no group holds a spread, a rest element or an
    ignored computed key; so every member of a group is a [Property], and
    [key] is read on properties only. *)
Lemma splitIntoGroups_members (properties : list node) :
  Forall (fun g => g <> [] /\
                   Forall (fun prop => type prop = Property /\
                                       isIgnoredComputed o prop = false) g)
         (splitIntoGroups o properties).
Proof.
  assert (Hkept : forall g, g <> [] /\ Forall (keptBySegmenter o) g ->
                  g <> [] /\ Forall (fun prop => type prop = Property /\
                                       isIgnoredComputed o prop = false) g).
  { intros g [Hne Hg]. split; [exact Hne|].
    apply (Forall_impl _ (P := keptBySegmenter o)); [|exact Hg].
    intros prop [Hs Hi]. split; [|exact Hi].
    unfold isSpread in Hs. destruct (type prop); congruence. }
  unfold splitIntoGroups.
  pose proof (fold_splitStep_wellFormed properties ([], [])) as Hwf.
  destruct (fold_left (splitStep o) properties ([], [])) as [groups current].
  destruct Hwf as [Hg Hc]; [split; constructor|]. simpl in Hg, Hc.
  assert (Hgroups : Forall (fun g => g <> [] /\
                       Forall (fun prop => type prop = Property /\
                                       isIgnoredComputed o prop = false) g) groups).
  { apply (Forall_impl _ Hkept Hg). }
  destruct current as [|c cs]; [exact Hgroups|].
  apply Forall_app. split; [exact Hgroups|].
  constructor; [|constructor]. apply Hkept. split; [discriminate | exact Hc].
Qed.

End Segmentation.

(* ================================================================== *)
(** * Further properties of the rule *)

(* ------------------------------------------------------------------ *)
(** ** Resolution of the order mode *)

Lemma isValidOrders_keys {host : Host} (k : string)
    (p : jsstring -> jsstring -> bool) :
  isValidOrders k = Some p ->
  In k ["asc"; "ascI"; "ascN"; "ascIN"; "desc"; "descI"; "descN"; "descIN"]%string.
Proof.
  unfold isValidOrders.
  repeat match goal with
         | |- context [String.eqb k ?c] =>
             destruct (String.eqb_spec k c) as [->|_]; [intros _; simpl; tauto|]
         end.
  discriminate.
Qed.

(** X1. Every option set builds a key that the table of predicates holds,
    so the predicate the rule uses is never [undefined]; and the table
    holds no other key: each of its entries is the one some option set
    selects. *)
Theorem order_mode_resolution_is_total {host : Host} :
  (forall o, isValidOrders (orderKey o) = Some (isValidOrder o)) /\
  (forall k p, isValidOrders k = Some p ->
     exists o, k = orderKey o /\ p = isValidOrder o).
Proof.
  split.
  - intros o. rewrite isValidOrder_resolved. apply isValidOrders_orderKey.
  - intros k p Hk. pose proof (isValidOrders_keys k p Hk) as Hin.
    simpl in Hin.
    assert (Hmk : forall d cs nat,
               k = orderKey (mkOptions d false cs false 2 nat) ->
               exists o, k = orderKey o /\ p = isValidOrder o).
    { intros d cs nat E. exists (mkOptions d false cs false 2 nat).
      split; [exact E|]. unfold isValidOrder. rewrite <- E, Hk. reflexivity. }
    destruct Hin as [<-|[<-|[<-|[<-|[<-|[<-|[<-|[<-|[]]]]]]]]].
    + apply (Hmk Asc true false). reflexivity.
    + apply (Hmk Asc false false). reflexivity.
    + apply (Hmk Asc true true). reflexivity.
    + apply (Hmk Asc false true). reflexivity.
    + apply (Hmk Desc true false). reflexivity.
    + apply (Hmk Desc false false). reflexivity.
    + apply (Hmk Desc true true). reflexivity.
    + apply (Hmk Desc false true). reflexivity.
Qed.

(* ------------------------------------------------------------------ *)
(** ** The comparator against the predicates *)

(** X2. The two ways the rule orders names agree: for every option set
    the comparator built by [makeComparator] puts [a] not after [b]
    exactly when the predicate taken from the table accepts [a] before
    [b], and puts it after exactly when the predicate rejects the pair.
    The host collation is consistent. *)
Theorem comparator_agrees_with_predicate {host : Host} (o : options)
    (a b : jsstring) (Hhost : consistent localeCompare) :
  (comparator o a b <= 0 <-> isValidOrder o a b = true) /\
  (0 < comparator o a b <-> isValidOrder o a b = false).
Proof.
  pose proof (comparator_le_isValidOrder o Hhost a b) as H.
  split; [exact H|].
  destruct (isValidOrder o a b).
  - split; [|discriminate]. intros Hgt. destruct H as [_ H].
    specialize (H eq_refl). lia.
  - split; [reflexivity|]. intros _.
    destruct (Z.lt_ge_cases 0 (comparator o a b)) as [Hlt|Hge]; [exact Hlt|].
    destruct H as [H _]. specialize (H ltac:(lia)). discriminate.
Qed.

Lemma comparator_agrees_with_predicate_witness :
  consistent (@localeCompare referenceHost) /\
  @isValidOrder referenceHost
     (mkOptions Desc false false false 2 true) (str "Item10") (str "item2") = true.
Proof.
  split; [exact referenceHost_consistent|].
  apply (proj1 (@comparator_agrees_with_predicate referenceHost
                  (mkOptions Desc false false false 2 true)
                  (str "Item10") (str "item2") referenceHost_consistent)).
  vm_compute. discriminate.
Defined.

(** X3. In every mode the predicate is a total preorder on names: a name
    may follow itself (duplicate keys are never a violation), of two
    names at least one order is accepted, and acceptance is transitive.
    The host collation is consistent. *)
Theorem order_predicates_are_total_preorders {host : Host} (o : options)
    (Hhost : consistent localeCompare) :
  (forall a, isValidOrder o a a = true) /\
  (forall a b, isValidOrder o a b = true \/ isValidOrder o b a = true) /\
  (forall a b c, isValidOrder o a b = true -> isValidOrder o b c = true ->
                 isValidOrder o a c = true).
Proof.
  pose proof (comparator_consistent o Hhost) as Hc.
  split; [|split].
  - intros a. apply (comparator_le_isValidOrder o Hhost).
    rewrite (consistent_refl (comparator o) a Hc). lia.
  - intros a b.
    destruct (Z.lt_ge_cases 0 (comparator o a b)) as [Hlt|Hge].
    + right. apply (comparator_le_isValidOrder o Hhost).
      pose proof (consistent_total (comparator o) a b Hc Hlt). lia.
    + left. apply (comparator_le_isValidOrder o Hhost). lia.
  - intros a b c Hab Hbc.
    apply (comparator_le_isValidOrder o Hhost) in Hab, Hbc.
    apply (comparator_le_isValidOrder o Hhost).
    exact (proj2 Hc a b c Hab Hbc).
Qed.

Lemma order_predicates_are_total_preorders_witness :
  @isValidOrder referenceHost
     (mkOptions Asc false false false 2 true) (str "Key7") (str "Key7") = true.
Proof.
  exact (proj1 (@order_predicates_are_total_preorders referenceHost
                  (mkOptions Asc false false false 2 true)
                  referenceHost_consistent) (str "Key7")).
Defined.

(** X4. What the rule hands to [Array.prototype.sort] is a consistent
    comparison, as the sort requires for its result to be defined: both
    the comparator on names, in every mode, and the comparison on
    properties that ranks an unsortable property after the others. The
    host collation is consistent. *)
Theorem sort_comparison_is_consistent {host : Host} (o : options)
    (Hhost : consistent localeCompare) :
  consistent (comparator o) /\ consistent (compareProps o).
Proof.
  split; [apply comparator_consistent | apply compareProps_consistent];
    exact Hhost.
Qed.

Lemma sort_comparison_is_consistent_witness :
  consistent (@compareProps referenceHost
                (mkOptions Desc false false false 2 true)).
Proof.
  exact (proj2 (@sort_comparison_is_consistent referenceHost
                  (mkOptions Desc false false false 2 true)
                  referenceHost_consistent)).
Defined.

(* ------------------------------------------------------------------ *)
(** ** Segmentation *)

Section SegmentationFacts.
Context {sourceCode : SourceCode}.
Variable o : options.

(** One turn of the loop adds the property to what the state holds, or
    adds nothing when the property is a separator. *)
Lemma splitStep_flatten (st : list (list node) * list node) (prop : node) :
  concat (fst (splitStep o st prop)) ++ snd (splitStep o st prop)
  = concat (fst st) ++ snd st
    ++ (if isSeparator o prop then [] else [prop]).
Proof.
  destruct st as [groups current]. unfold splitStep, isSeparator.
  destruct (isSpread prop || isIgnoredComputed o prop).
  - destruct current; simpl; rewrite ?app_nil_r; [reflexivity|].
    rewrite concat_app. simpl. rewrite !app_nil_r. reflexivity.
  - destruct (allowLineSeparatedGroups o && (0 <? Z.of_nat (length current)));
      [destruct (hasBlankLineBetween (last current prop) prop)|]; simpl.
    + rewrite concat_app. simpl. rewrite app_nil_r, <- app_assoc. reflexivity.
    + reflexivity.
    + reflexivity.
Qed.

Lemma fold_splitStep_flatten (properties : list node)
    (st : list (list node) * list node) :
  concat (fst (fold_left (splitStep o) properties st))
  ++ snd (fold_left (splitStep o) properties st)
  = concat (fst st) ++ snd st
    ++ filter (fun prop => negb (isSeparator o prop)) properties.
Proof.
  revert st. induction properties as [|prop properties IH]; intros st; simpl.
  - rewrite app_nil_r. reflexivity.
  - rewrite IH, app_assoc, splitStep_flatten.
    destruct (isSeparator o prop); simpl; rewrite <- ?app_assoc, ?app_nil_r;
      reflexivity.
Qed.

Lemma splitIntoGroups_concat (properties : list node) :
  concat (splitIntoGroups o properties)
  = filter (fun prop => negb (isSeparator o prop)) properties.
Proof.
  pose proof (fold_splitStep_flatten properties ([], [])) as H.
  unfold splitIntoGroups.
  destruct (fold_left (splitStep o) properties ([], [])) as [groups current].
  simpl in H. rewrite <- H.
  destruct current; [rewrite app_nil_r; reflexivity|].
  rewrite concat_app. simpl. rewrite app_nil_r. reflexivity.
Qed.

(** Groups already closed are never touched again. *)
Lemma splitStep_closed_groups (closed groups : list (list node))
    (current : list node) (prop : node) :
  splitStep o (closed ++ groups, current) prop
  = (closed ++ fst (splitStep o (groups, current) prop),
     snd (splitStep o (groups, current) prop)).
Proof.
  unfold splitStep.
  destruct (isSpread prop || isIgnoredComputed o prop).
  - destruct current; simpl; rewrite <- ?app_assoc; reflexivity.
  - destruct (allowLineSeparatedGroups o && (0 <? Z.of_nat (length current)));
      [destruct (hasBlankLineBetween (last current prop) prop)|]; simpl;
      rewrite <- ?app_assoc; reflexivity.
Qed.

Lemma fold_splitStep_closed_groups (properties : list node)
    (closed groups : list (list node)) (current : list node) :
  fold_left (splitStep o) properties (closed ++ groups, current)
  = (closed ++ fst (fold_left (splitStep o) properties (groups, current)),
     snd (fold_left (splitStep o) properties (groups, current))).
Proof.
  revert groups current.
  induction properties as [|prop properties IH]; intros groups current;
    cbn [fold_left].
  - reflexivity.
  - rewrite splitStep_closed_groups.
    destruct (splitStep o (groups, current) prop) as [groups' current'].
    cbn [fst snd]. apply IH.
Qed.

Lemma splitIntoGroups_separator (before after : list node) (separator : node) :
  isSeparator o separator = true ->
  splitIntoGroups o (before ++ separator :: after)
  = splitIntoGroups o before ++ splitIntoGroups o after.
Proof.
  intros Hsep. unfold splitIntoGroups at 1 2.
  rewrite fold_left_app. simpl fold_left.
  destruct (fold_left (splitStep o) before ([], [])) as [groups current].
  assert (Hstep : splitStep o (groups, current) separator
                  = (match current with [] => groups | _ :: _ => groups ++ [current] end,
                     [])).
  { unfold splitStep. unfold isSeparator in Hsep. rewrite Hsep.
    destruct current; reflexivity. }
  rewrite Hstep.
  set (closed := match current with [] => groups | _ :: _ => groups ++ [current] end).
  rewrite <- (app_nil_r closed) at 1.
  rewrite fold_splitStep_closed_groups.
  unfold splitIntoGroups.
  destruct (fold_left (splitStep o) after ([], [])) as [groups' current'].
  simpl. destruct current'; [reflexivity|]. rewrite app_assoc. reflexivity.
Qed.

(** Without line grouping and without separators every property joins the
    current group. *)
Lemma fold_splitStep_one_group (properties current : list node) :
  allowLineSeparatedGroups o = false ->
  Forall (fun prop => isSeparator o prop = false) properties ->
  fold_left (splitStep o) properties ([], current) = ([], current ++ properties).
Proof.
  intros Hallow Hall. revert current.
  induction Hall as [|prop properties Hp _ IH]; intros current;
    cbn [fold_left].
  - rewrite app_nil_r. reflexivity.
  - assert (Hstep : splitStep o ([], current) prop = ([], current ++ [prop])).
    { unfold splitStep. unfold isSeparator in Hp. rewrite Hp, Hallow.
      reflexivity. }
    rewrite Hstep, IH, <- app_assoc. reflexivity.
Qed.

End SegmentationFacts.

(** X5. The segmenter partitions the kept properties: the groups, put end
    to end, are exactly the properties that are neither spread or rest
    elements nor ignored computed keys, in source order and each once; no
    group is empty; every member of a group is a [Property]. *)
Theorem segmentation_partitions_kept_properties {sourceCode : SourceCode}
    (o : options) (properties : list node) :
  concat (splitIntoGroups o properties)
  = filter (fun prop => negb (isSeparator o prop)) properties /\
  Forall (fun group => group <> [] /\
                       Forall (fun prop => type prop = Property /\
                                           isIgnoredComputed o prop = false) group)
         (splitIntoGroups o properties).
Proof.
  split; [apply splitIntoGroups_concat | apply splitIntoGroups_members].
Qed.

(** X6. A spread, a rest element or an ignored computed key cuts the
    segmentation in two: the groups of the whole list are the groups of
    what comes before it followed by the groups of what comes after it,
    whatever the other options and the blank lines around it. *)
Theorem separator_cuts_segmentation {sourceCode : SourceCode} (o : options)
    (before after : list node) (separator : node)
    (Hseparator : isSeparator o separator = true) :
  splitIntoGroups o (before ++ separator :: after)
  = splitIntoGroups o before ++ splitIntoGroups o after.
Proof. apply splitIntoGroups_separator, Hseparator. Qed.

Lemma separator_cuts_segmentation_witness :
  @splitIntoGroups Samples.commas Samples.withIgnoreComputedKeys
     ([Samples.plain "b" 2 1; Samples.plain "a" 8 1]
      ++ Samples.computedDynamic "k" 14 1
      :: [Samples.plain "y" 22 1; Samples.plain "x" 28 1])
  = [[Samples.plain "b" 2 1; Samples.plain "a" 8 1];
     [Samples.plain "y" 22 1; Samples.plain "x" 28 1]].
Proof.
  rewrite (@separator_cuts_segmentation Samples.commas
             Samples.withIgnoreComputedKeys
             [Samples.plain "b" 2 1; Samples.plain "a" 8 1]
             [Samples.plain "y" 22 1; Samples.plain "x" 28 1]
             (Samples.computedDynamic "k" 14 1) eq_refl).
  reflexivity.
Defined.

(** X7. With [allowLineSeparatedGroups] off the segmenter never consults
    the tokens of the source, and an object without spread, rest or
    ignored computed properties is one group holding all its properties
    (no group at all when it is empty), however many blank lines it
    has. *)
Theorem without_line_groups_only_separators_split (o : options)
    (properties : list node)
    (Hallow : allowLineSeparatedGroups o = false) :
  (forall source1 source2 : SourceCode,
     @splitIntoGroups source1 o properties = @splitIntoGroups source2 o properties) /\
  (forall sourceCode : SourceCode,
     Forall (fun prop => isSeparator o prop = false) properties ->
     splitIntoGroups o properties
     = match properties with [] => [] | _ :: _ => [properties] end).
Proof.
  split.
  - intros source1 source2. unfold splitIntoGroups.
    assert (Hfold : forall st,
               fold_left (@splitStep source1 o) properties st
               = fold_left (@splitStep source2 o) properties st).
    { induction properties as [|prop props IH]; intros st; [reflexivity|].
      simpl. rewrite <- IH. f_equal.
      destruct st as [groups current]. unfold splitStep. rewrite Hallow.
      reflexivity. }
    rewrite Hfold. reflexivity.
  - intros sourceCode Hall. unfold splitIntoGroups.
    rewrite (fold_splitStep_one_group o properties [] Hallow Hall).
    simpl. destruct properties; reflexivity.
Qed.

Lemma without_line_groups_only_separators_split_witness :
  @splitIntoGroups Samples.commas defaultOptions Samples.betaAlphaGapYX
  = [Samples.betaAlphaGapYX].
Proof.
  apply (proj2 (without_line_groups_only_separators_split defaultOptions
                  Samples.betaAlphaGapYX eq_refl) Samples.commas).
  repeat constructor.
Defined.

(* ------------------------------------------------------------------ *)
(** ** When a group is reported *)

(** X8. A group is reported exactly when it has at least [minKeys]
    properties and some index holds a violation; it is passed over exactly
    when it is shorter than [minKeys] or holds no violation; and a group of
    fewer than two properties is never reported, whatever [minKeys] is. *)
Theorem group_is_reported_exactly_when_it_violates {host : Host} (o : options)
    (group : list node) :
  let names := map getPropertyName group in
  ((exists r, analyzeGroup o group = Report r) <->
   minKeys o <= Z.of_nat (length group) /\
   exists i, violationAt names (isValidOrder o) i) /\
  (analyzeGroup o group = NoReport <->
   Z.of_nat (length group) < minKeys o \/
   forall i, ~ violationAt names (isValidOrder o) i) /\
  ((length group <= 1)%nat -> analyzeGroup o group = NoReport).
Proof.
  intros names.
  pose proof (analyzeGroup_never_throws o group) as Hthrow.
  pose proof (areSorted_false_iff names (isValidOrder o)) as Hfalse.
  pose proof (areSorted_true_iff names (isValidOrder o)) as Htrue.
  assert (Hcases :
    (Z.of_nat (length group) < minKeys o /\ analyzeGroup o group = NoReport) \/
    (minKeys o <= Z.of_nat (length group) /\
     areSorted names (isValidOrder o) = true /\ analyzeGroup o group = NoReport) \/
    (minKeys o <= Z.of_nat (length group) /\
     areSorted names (isValidOrder o) = false /\
     exists r, analyzeGroup o group = Report r)).
  { unfold analyzeGroup in *. fold names in Hthrow |- *.
    destruct (Z.ltb_spec (Z.of_nat (length group)) (minKeys o)); [left; auto|].
    right. destruct (areSorted names (isValidOrder o)); [left; auto|].
    right. destruct (nth_error group _); [|congruence].
    repeat split; try assumption. eexists. reflexivity. }
  split; [|split].
  - split.
    + intros [r Hr].
      destruct Hcases as [[_ H]|[[_ [_ H]]|[Hmin [Hs _]]]]; try congruence.
      split; [exact Hmin | apply Hfalse, Hs].
    + intros [Hmin Hv]. apply Hfalse in Hv.
      destruct Hcases as [[H _]|[[_ [H _]]|[_ [_ H]]]];
        [lia | congruence | exact H].
  - split.
    + intros Hn.
      destruct Hcases as [[H _]|[[_ [H _]]|[_ [_ [r H]]]]];
        [left; exact H | right; apply Htrue, H | congruence].
    + intros [Hlt|Hnone].
      * destruct Hcases as [[_ H]|[[H _]|[H _]]]; [exact H | lia | lia].
      * apply Htrue in Hnone.
        destruct Hcases as [[_ H]|[[_ [_ H]]|[_ [H _]]]];
          [exact H | exact H | congruence].
  - intros Hshort.
    assert (Hs : areSorted names (isValidOrder o) = true).
    { apply Htrue. intros i Hv. apply violationAt_in_range in Hv.
      unfold names in Hv. rewrite length_map in Hv. lia. }
    destruct Hcases as [[_ H]|[[_ [_ H]]|[_ [H _]]]];
      [exact H | exact H | congruence].
Qed.

(** X9. An object with fewer than [minKeys] properties gives no report.
    Otherwise every report names a property of the object that the
    segmenter kept, and each of its edits replaces the span of such a
    property: a spread, a rest element or an ignored computed key is never
    reported and never rewritten. Reading [group[firstViolationIdx]] never
    fails. *)
Theorem reports_touch_kept_properties_only {host : Host}
    {sourceCode : SourceCode} (o : options) (properties : list node) :
  (Z.of_nat (length properties) < minKeys o -> checkObject o properties = []) /\
  ~ In TypeError (checkObject o properties) /\
  (forall r, In (Report r) (checkObject o properties) ->
     (In (reportNode r) properties /\ isSeparator o (reportNode r) = false) /\
     forall e, In e (reportFix r) ->
       exists n, In n properties /\ isSeparator o n = false /\
                 editRange e = range n).
Proof.
  assert (Hmember : forall group n,
             In group (splitIntoGroups o properties) -> In n group ->
             In n properties /\ isSeparator o n = false).
  { intros group n Hg Hn.
    assert (Hin : In n (concat (splitIntoGroups o properties))).
    { apply in_concat. exists group. auto. }
    rewrite splitIntoGroups_concat in Hin. apply filter_In in Hin.
    destruct Hin as [Hin Hs]. apply negb_true_iff in Hs. auto. }
  unfold checkObject. split; [|split].
  - intros Hlt. apply Z.ltb_lt in Hlt. rewrite Hlt. reflexivity.
  - destruct (Z.of_nat (length properties) <? minKeys o); [intros []|].
    intros Hin. apply in_map_iff in Hin. destruct Hin as [group [Hg _]].
    exact (analyzeGroup_never_throws o group Hg).
  - intros r Hin.
    destruct (Z.of_nat (length properties) <? minKeys o); [destruct Hin|].
    apply in_map_iff in Hin. destruct Hin as [group [Hr Hg]].
    unfold analyzeGroup in Hr.
    destruct (Z.of_nat (length group) <? minKeys o); [discriminate|].
    destruct (areSorted _ _); [discriminate|].
    destruct (nth_error group _) as [n|] eqn:En; [|discriminate].
    injection Hr as <-. simpl. split.
    + apply (Hmember group); [exact Hg | eapply nth_error_In, En].
    + intros e He. apply in_fix_iff in He.
      destruct He as [i [a [b [Ha [_ [_ ->]]]]]].
      exists a. simpl.
      destruct (Hmember group a Hg (nth_error_In _ _ Ha)). auto.
Qed.

(* ------------------------------------------------------------------ *)
(** ** Detector and planner *)

Lemma Sorted_from_neighbours {A : Type} (R : A -> A -> Prop) (l : list A) :
  (forall i x y, nth_error l i = Some x -> nth_error l (S i) = Some y -> R x y) ->
  Sorted R l.
Proof.
  induction l as [|x l IH]; intros H; constructor.
  - apply IH. intros i a b Ha Hb. exact (H (S i) a b Ha Hb).
  - destruct l as [|y l]; constructor. exact (H 0%nat x y eq_refl eq_refl).
Qed.

Lemma valid_names_are_sorted {host : Host} (o : options) (group : list node) :
  consistent localeCompare ->
  Forall (fun n => unsortable n = false) group ->
  areSorted (map getPropertyName group) (isValidOrder o) = true ->
  Sorted (fun a b => compareProps o a b <= 0) group.
Proof.
  intros Hhost Hall Hs. rewrite Forall_forall in Hall.
  apply Sorted_from_neighbours. intros i x y Hx Hy.
  pose proof (Hall x (nth_error_In _ _ Hx)) as Hnx.
  pose proof (Hall y (nth_error_In _ _ Hy)) as Hny.
  unfold unsortable in Hnx, Hny. unfold compareProps.
  destruct (getPropertyName x) as [a|] eqn:Ea; [|discriminate].
  destruct (getPropertyName y) as [b|] eqn:Eb; [|discriminate].
  apply (comparator_le_isValidOrder o Hhost).
  destruct (isValidOrder o a b) eqn:Ep; [reflexivity|]. exfalso.
  apply (proj1 (areSorted_true_iff _ _) Hs (S i)).
  split; [lia|]. exists a, b.
  replace (S i - 1)%nat with i by lia.
  rewrite !nth_error_map, Hx, Hy. simpl. rewrite Ea, Eb. auto.
Qed.

(** X10. On a group whose properties all have a name the detector and the
    planner agree: the detector finds the group sorted exactly when the
    target order is the group itself, in which case the plan is empty.
    The host collation is consistent. *)
Theorem detector_and_planner_agree {host : Host} (o : options)
    (group : list node)
    (Hhost : consistent localeCompare)
    (Hnamed : Forall (fun n => unsortable n = false) group) :
  (areSorted (map getPropertyName group) (isValidOrder o) = true <->
   sortGroup o group = group) /\
  (areSorted (map getPropertyName group) (isValidOrder o) = true ->
   fix_ group (sortGroup o group) = []).
Proof.
  assert (Hto : areSorted (map getPropertyName group) (isValidOrder o) = true ->
                sortGroup o group = group).
  { intros Hs. apply Array_sort_fixpoint.
    apply valid_names_are_sorted; assumption. }
  split; [split; [exact Hto|] | ].
  - intros Heq. rewrite <- Heq. apply sorted_names_are_valid; [exact Hhost|].
    apply Array_sort_sorted, compareProps_consistent, Hhost.
  - intros Hs. rewrite (Hto Hs). apply fix_unchanged.
Qed.

Lemma detector_and_planner_agree_witness :
  @sortGroup referenceHost defaultOptions
     [Samples.plain "Bar" 2 1; Samples.plain "foo" 10 1]
  = [Samples.plain "Bar" 2 1; Samples.plain "foo" 10 1].
Proof.
  apply (proj1 (@detector_and_planner_agree referenceHost defaultOptions
                  [Samples.plain "Bar" 2 1; Samples.plain "foo" 10 1]
                  referenceHost_consistent
                  ltac:(repeat constructor))).
  reflexivity.
Defined.

(** X11. The target order is a fixed point: sorting it again changes
    nothing, the detector finds it sorted and nothing is reported for it;
    and whenever the target order of a group is the group itself, the
    detector finds the group sorted. The host collation is consistent. *)
Theorem target_order_is_a_fixed_point {host : Host} (o : options)
    (group : list node) (Hhost : consistent localeCompare) :
  sortGroup o (sortGroup o group) = sortGroup o group /\
  areSorted (map getPropertyName (sortGroup o group)) (isValidOrder o) = true /\
  analyzeGroup o (sortGroup o group) = NoReport /\
  (sortGroup o group = group ->
   areSorted (map getPropertyName group) (isValidOrder o) = true).
Proof.
  pose proof (Array_sort_sorted (compareProps o) group
                (compareProps_consistent o Hhost)) as Hsorted.
  fold (sortGroup o group) in Hsorted.
  pose proof (sorted_names_are_valid o Hhost _ Hsorted) as Hvalid.
  split; [apply Array_sort_fixpoint, Hsorted|].
  split; [exact Hvalid|]. split.
  - unfold analyzeGroup. rewrite Hvalid.
    destruct (Z.of_nat (length (sortGroup o group)) <? minKeys o); reflexivity.
  - intros Heq. rewrite <- Heq. exact Hvalid.
Qed.

Lemma target_order_is_a_fixed_point_witness :
  @analyzeGroup referenceHost (mkOptions Desc false false false 2 true)
     (@sortGroup referenceHost (mkOptions Desc false false false 2 true)
                 Samples.fooDynBazBar) = NoReport.
Proof.
  exact (proj1 (proj2 (proj2
           (@target_order_is_a_fixed_point referenceHost
              (mkOptions Desc false false false 2 true)
              Samples.fooDynBazBar referenceHost_consistent)))).
Defined.

(* ------------------------------------------------------------------ *)
(** ** What a reported fix does *)

Lemma fix_cons (x y : node) (group sorted : list node) :
  fix_ (x :: group) (y :: sorted)
  = (if sameNode x y then [] else [replaceText x (getText y)])
    ++ fix_ group sorted.
Proof. unfold fix_. simpl. destruct (sameNode x y); reflexivity. Qed.

Lemma fix_nil_same (group sorted : list node) :
  length group = length sorted -> fix_ group sorted = [] -> group = sorted.
Proof.
  revert sorted. induction group as [|x group IH]; intros [|y sorted] Hlen;
    try discriminate; [reflexivity|].
  rewrite fix_cons. destruct (sameNode x y) eqn:E; [|discriminate].
  apply sameNode_true in E. subst y. simpl. intros H. f_equal.
  apply IH; [simpl in Hlen; lia | exact H].
Qed.

Lemma fix_one_edit (group sorted : list node) :
  length group = length sorted -> length (fix_ group sorted) = 1%nat ->
  exists before x y rest,
    group = before ++ x :: rest /\ sorted = before ++ y :: rest /\ x <> y.
Proof.
  revert sorted. induction group as [|x group IH]; intros [|y sorted] Hlen;
    try discriminate.
  rewrite fix_cons. simpl in Hlen.
  destruct (sameNode x y) eqn:E; simpl.
  - apply sameNode_true in E. subst y. intros H.
    destruct (IH sorted ltac:(lia) H) as [before [a [b [rest [-> [-> Hne]]]]]].
    exists (x :: before), a, b, rest. auto.
  - intros H. assert (Hnil : fix_ group sorted = []).
    { destruct (fix_ group sorted); [reflexivity | discriminate]. }
    apply fix_nil_same in Hnil; [|lia]. subst sorted.
    exists [], x, y, group. repeat split.
    intros Heq. apply sameNode_true in Heq. congruence.
Qed.

(** X12. A reported group is never already in its target order, and its
    fix rewrites at least two properties: no report carries an empty fix
    or a fix of a single edit. The host collation is consistent. *)
Theorem reported_fix_rewrites_at_least_two {host : Host} (o : options)
    (group : list node) (r : report)
    (Hhost : consistent localeCompare)
    (Hreport : analyzeGroup o group = Report r) :
  sortGroup o group <> group /\ (2 <= length (reportFix r))%nat.
Proof.
  assert (Hr : areSorted (map getPropertyName group) (isValidOrder o) = false
               /\ reportFix r = fix_ group (sortGroup o group)).
  { unfold analyzeGroup in Hreport.
    destruct (Z.of_nat (length group) <? minKeys o); [discriminate|].
    destruct (areSorted _ _); [discriminate|].
    destruct (nth_error group _); [|discriminate].
    injection Hreport as <-. auto. }
  destruct Hr as [Hs Hfix].
  pose proof (Array_sort_perm (compareProps o) group) as Hperm.
  fold (sortGroup o group) in Hperm.
  assert (Hne : sortGroup o group <> group).
  { intros Heq.
    pose proof (Array_sort_sorted (compareProps o) group
                  (compareProps_consistent o Hhost)) as Hsorted.
    fold (sortGroup o group) in Hsorted. rewrite Heq in Hsorted.
    rewrite (sorted_names_are_valid o Hhost _ Hsorted) in Hs. discriminate. }
  split; [exact Hne|]. rewrite Hfix.
  pose proof (Permutation_length Hperm) as Hlen.
  destruct (length (fix_ group (sortGroup o group))) as [|[|n]] eqn:El; [ | | lia].
  - exfalso. apply Hne. symmetry. apply fix_nil_same; [exact Hlen|].
    destruct (fix_ group (sortGroup o group)); [reflexivity | discriminate].
  - exfalso.
    destruct (fix_one_edit _ _ Hlen El) as [before [x [y [rest [Hg [Hsg Hxy]]]]]].
    rewrite Hsg in Hperm. rewrite Hg in Hperm at 1.
    apply Permutation_app_inv_l in Hperm.
    change (Permutation ([x] ++ rest) ([y] ++ rest)) in Hperm.
    apply Permutation_app_inv_r, Permutation_length_1 in Hperm. congruence.
Qed.

Lemma reported_fix_rewrites_at_least_two_witness :
  (2 <= length (reportFix (@Samples.fooDynBazBarReport referenceHost)))%nat.
Proof.
  exact (proj2 (@reported_fix_rewrites_at_least_two referenceHost defaultOptions
                  Samples.fooDynBazBar
                  (@Samples.fooDynBazBarReport referenceHost)
                  referenceHost_consistent eq_refl)).
Defined.

(** X13. Applied together to a group laid out as a parser does, the edits
    of a report leave at each position the text of the target property of
    that position; so the texts of the group after the fix are a
    permutation of its texts before: every property is moved verbatim and
    none is lost, repeated or altered. *)
Theorem fix_permutes_texts {host : Host} (o : options)
    (group : list node) (r : report)
    (Hlayout : laidOut group)
    (Hreport : analyzeGroup o group = Report r) :
  map (textAfter (reportFix r)) group = map text (sortGroup o group) /\
  Permutation (map text group) (map (textAfter (reportFix r)) group).
Proof.
  assert (Hfix : reportFix r = fix_ group (sortGroup o group)).
  { unfold analyzeGroup in Hreport.
    destruct (Z.of_nat (length group) <? minKeys o); [discriminate|].
    destruct (areSorted _ _); [discriminate|].
    destruct (nth_error group _); [|discriminate].
    injection Hreport as <-. reflexivity. }
  pose proof (Array_sort_perm (compareProps o) group) as Hperm.
  fold (sortGroup o group) in Hperm.
  assert (Htexts : map (textAfter (reportFix r)) group
                   = map text (sortGroup o group)).
  { rewrite Hfix. apply texts_after_fix; [exact Hlayout|].
    symmetry. apply Permutation_length, Hperm. }
  split; [exact Htexts|]. rewrite Htexts. apply Permutation_map, Hperm.
Qed.

Lemma fix_permutes_texts_witness :
  map (textAfter (reportFix (@Samples.fooDynBazBarReport referenceHost)))
      Samples.fooDynBazBar
  = map text Samples.barBazFooDyn.
Proof.
  assert (Hlayout : laidOut Samples.fooDynBazBar).
  { split; repeat constructor; simpl; lia. }
  rewrite (proj1 (@fix_permutes_texts referenceHost defaultOptions
                    Samples.fooDynBazBar
                    (@Samples.fooDynBazBarReport referenceHost)
                    Hlayout eq_refl)).
  reflexivity.
Defined.

(* ------------------------------------------------------------------ *)
(** ** More on detection *)

Lemma violationAt_rev (names : list (option jsstring))
    (p : jsstring -> jsstring -> bool) (i : nat) :
  violationAt names (flipped p) i ->
  violationAt (rev names) p (length names - i).
Proof.
  intros Hv. pose proof (violationAt_in_range _ _ _ Hv) as Hi.
  destruct Hv as [_ [a [b [Ha [Hb Hp]]]]]. unfold flipped in Hp.
  split; [lia|]. exists b, a. rewrite !nth_error_rev.
  replace (length names - i - 1 <? length names)%nat with true
    by (symmetry; apply Nat.ltb_lt; lia).
  replace (length names - i <? length names)%nat with true
    by (symmetry; apply Nat.ltb_lt; lia).
  replace (length names - S (length names - i - 1))%nat with i by lia.
  replace (length names - S (length names - i))%nat with (i - 1)%nat by lia.
  auto.
Qed.

Lemma areSorted_rev (names : list (option jsstring))
    (p : jsstring -> jsstring -> bool) :
  areSorted names (flipped p) = areSorted (rev names) p.
Proof.
  apply eq_true_iff_eq. rewrite !areSorted_true_iff. split.
  - intros H i Hv. apply (H (length (rev names) - i)%nat).
    rewrite <- (rev_involutive names) at 1.
    apply violationAt_rev.
    destruct Hv as [Hi [a [b [Ha [Hb Hp]]]]]. split; [exact Hi|].
    exists a, b. auto.
  - intros H i Hv. apply (H (length names - i)%nat).
    apply violationAt_rev, Hv.
Qed.

Lemma isValidOrder_desc_flipped {host : Host} (o : options) :
  isValidOrder (withOrder Desc o) = flipped (isValidOrder (withOrder Asc o)).
Proof.
  rewrite !isValidOrder_resolved. simpl.
  destruct (caseSensitive o), (natural o); reflexivity.
Qed.

(** X14. Checking names against the descending order is checking the same
    names read backwards against the ascending order of the same case and
    natural mode: the detector gives the same answer on both. *)
Theorem descending_check_is_ascending_check_reversed {host : Host}
    (o : options) (names : list (option jsstring)) :
  areSorted names (isValidOrder (withOrder Desc o))
  = areSorted (rev names) (isValidOrder (withOrder Asc o)).
Proof. rewrite isValidOrder_desc_flipped. apply areSorted_rev. Qed.

(** X15. A list of fewer than two names is sorted, and every run of
    consecutive names of a sorted list is sorted: cutting a list the
    detector accepts gives two lists it accepts. *)
Theorem sorted_names_have_sorted_parts (p : jsstring -> jsstring -> bool) :
  (forall names, (length names <= 1)%nat -> areSorted names p = true) /\
  (forall xs ys, areSorted (xs ++ ys) p = true ->
                 areSorted xs p = true /\ areSorted ys p = true).
Proof.
  split.
  - intros names Hlen. apply areSorted_true_iff. intros i Hv.
    apply violationAt_in_range in Hv. lia.
  - intros xs ys H. rewrite areSorted_true_iff in H.
    split; apply areSorted_true_iff; intros i Hv.
    + apply (H i). apply violationAt_app_l, Hv.
    + apply (H (length xs + i)%nat). apply violationAt_app_r, Hv.
Qed.

(* ------------------------------------------------------------------ *)
(** ** More on blank lines *)

(** X16. When the two properties and the tokens between them are in
    source order, a blank line is found only if the second property
    starts more than one line below the end of the first; and when nothing
    lies between them, exactly then. *)
Theorem blank_line_needs_a_gap {sourceCode : SourceCode} (nodeA nodeB : node)
    (Horder : inSourceOrder (gapLines nodeA nodeB)) :
  (hasBlankLineBetween nodeA nodeB = true ->
   1 < startLine nodeB - endLine nodeA) /\
  (getTokensBetween nodeA nodeB = [] ->
   hasBlankLineBetween nodeA nodeB = (1 <? startLine nodeB - endLine nodeA)).
Proof.
  split.
  - intros Hblank. apply hasBlankLineBetween_iff in Hblank.
    destruct Hblank as [i [x [y [Hx [Hy Hgap]]]]].
    destruct Horder as [Hpos Hsorted]. rewrite Forall_forall in Hpos.
    unfold gapLines in *.
    set (tokens := map (fun t => (tokStartLine t, tokEndLine t))
                       (getTokensBetween nodeA nodeB)) in *.
    assert (Hfirst : snd (loc nodeA) <= snd x).
    { destruct i as [|i].
      - simpl in Hx. injection Hx as <-. lia.
      - pose proof (StronglySorted_nth _ _ 0%nat (S i) (loc nodeA) x Hsorted
                      ltac:(lia) eq_refl Hx) as H1.
        pose proof (Hpos x (nth_error_In _ _ Hx)). simpl in H1. lia. }
    assert (Hlast : nth_error (loc nodeA :: tokens ++ [loc nodeB])
                              (S (length tokens)) = Some (loc nodeB)).
    { simpl. rewrite nth_error_app2, Nat.sub_diag by lia. reflexivity. }
    assert (Hsecond : fst y <= fst (loc nodeB)).
    { destruct (Nat.eq_dec (S i) (S (length tokens))) as [E|E].
      - rewrite E, Hlast in Hy. injection Hy as <-. lia.
      - assert (S i < S (length tokens))%nat.
        { assert (S i < length (loc nodeA :: tokens ++ [loc nodeB]))%nat
            by (apply nth_error_Some; congruence).
          simpl in H. rewrite length_app in H. simpl in H. lia. }
        pose proof (StronglySorted_nth _ _ (S i) (S (length tokens)) y
                      (loc nodeB) Hsorted H Hy Hlast) as H1.
        pose proof (Hpos y (nth_error_In _ _ Hy)). simpl in H1. lia. }
    unfold startLine, endLine. lia.
  - intros Hnone. unfold hasBlankLineBetween. rewrite Hnone. simpl.
    apply orb_false_r.
Qed.

Lemma blank_line_needs_a_gap_witness :
  1 < startLine (Samples.plain "y" 33 5) - endLine (Samples.plain "alpha" 17 2).
Proof.
  assert (Horder : inSourceOrder
                     (@gapLines Samples.commas (Samples.plain "alpha" 17 2)
                                (Samples.plain "y" 33 5))).
  { unfold inSourceOrder, gapLines. simpl. unfold endLine. simpl. split.
    - repeat (apply Forall_cons; [simpl; lia|]). apply Forall_nil.
    - repeat (apply SSorted_cons;
              [|repeat (apply Forall_cons; [simpl; lia|]); apply Forall_nil]).
      apply SSorted_nil. }
  apply (proj1 (@blank_line_needs_a_gap Samples.commas
                  (Samples.plain "alpha" 17 2) (Samples.plain "y" 33 5)
                  Horder)).
  reflexivity.
Defined.

(* ------------------------------------------------------------------ *)
(** ** Names inside groups *)

(** X17. With [ignoreComputedKeys] on, every property of every group has
    a name, provided each plain (non-computed) key of the object is an
    identifier or a literal, as a parser makes them: the segmenter has
    removed every property whose name could be missing. *)
Theorem groups_are_named_when_computed_keys_are_ignored
    {sourceCode : SourceCode} (o : options) (properties : list node)
    (Hignore : ignoreComputedKeys o = true)
    (Hkeys : Forall (fun prop => computed prop = false ->
                                 key prop <> OtherExpression) properties) :
  Forall (fun group => Forall (fun prop => unsortable prop = false) group)
         (splitIntoGroups o properties).
Proof.
  apply Forall_forall. intros group Hgroup.
  apply Forall_forall. intros prop Hprop.
  assert (Hin : In prop (concat (splitIntoGroups o properties))).
  { apply in_concat. exists group. auto. }
  rewrite splitIntoGroups_concat in Hin. apply filter_In in Hin.
  destruct Hin as [Hin Hsep]. apply negb_true_iff in Hsep.
  unfold isSeparator in Hsep. apply orb_false_iff in Hsep.
  destruct Hsep as [_ Hcomputed].
  unfold isIgnoredComputed in Hcomputed. rewrite Hignore in Hcomputed.
  simpl in Hcomputed.
  rewrite Forall_forall in Hkeys. specialize (Hkeys prop Hin Hcomputed).
  unfold unsortable, getPropertyName. rewrite Hcomputed.
  destruct (key prop); [reflexivity | reflexivity | congruence].
Qed.

Lemma groups_are_named_when_computed_keys_are_ignored_witness :
  Forall (fun group => Forall (fun prop => unsortable prop = false) group)
         (@splitIntoGroups Samples.commas Samples.withIgnoreComputedKeys
            (Samples.plain "b" 2 1 :: Samples.computedDynamic "k" 8 1
             :: Samples.fooDynBazBar)).
Proof.
  apply (@groups_are_named_when_computed_keys_are_ignored Samples.commas
           Samples.withIgnoreComputedKeys
           (Samples.plain "b" 2 1 :: Samples.computedDynamic "k" 8 1
            :: Samples.fooDynBazBar) eq_refl).
  repeat constructor; simpl; discriminate.
Defined.

(* ------------------------------------------------------------------ *)
(** ** Case *)

(** X18. With [caseSensitive] off, two names with the same lower-casing
    are interchangeable: either may come before the other, the comparator
    finds them equal, and each stands for the other in any comparison with
    a third name. The host collation is consistent. *)
Theorem case_insensitive_names_are_interchangeable {host : Host} (o : options)
    (a b : jsstring)
    (Hhost : consistent localeCompare)
    (Hcase : caseSensitive o = false)
    (Hlower : toLowerCase a = toLowerCase b) :
  isValidOrder o a b = true /\ isValidOrder o b a = true /\
  comparator o a b = 0 /\
  (forall c, isValidOrder o a c = isValidOrder o b c /\
             isValidOrder o c a = isValidOrder o c b /\
             comparator o a c = comparator o b c /\
             comparator o c a = comparator o c b).
Proof.
  assert (Hsubst : forall c, isValidOrder o a c = isValidOrder o b c /\
             isValidOrder o c a = isValidOrder o c b /\
             comparator o a c = comparator o b c /\
             comparator o c a = comparator o c b).
  { intros c. rewrite !isValidOrder_resolved.
    unfold comparator, makeComparator. rewrite Hcase.
    unfold ascI, ascIN, descI, descIN, ascI, ascIN.
    destruct (order o), (natural o); rewrite Hlower; auto. }
  assert (Hzero : comparator o b b = 0).
  { apply consistent_refl, comparator_consistent, Hhost. }
  assert (Hself : isValidOrder o b b = true).
  { apply (comparator_le_isValidOrder o Hhost). lia. }
  destruct (Hsubst b) as [H1 [H2 [H3 _]]].
  split; [congruence|]. split; [congruence|]. split; [congruence|].
  exact Hsubst.
Qed.

Lemma case_insensitive_names_are_interchangeable_witness :
  @isValidOrder referenceHost (mkOptions Desc false false false 2 false)
     (str "Bar") (str "bar") = true /\
  @isValidOrder referenceHost (mkOptions Desc false false false 2 false)
     (str "bar") (str "Bar") = true.
Proof.
  destruct (@case_insensitive_names_are_interchangeable referenceHost
              (mkOptions Desc false false false 2 false)
              (str "Bar") (str "bar")
              referenceHost_consistent eq_refl eq_refl) as [H1 [H2 _]].
  split; [exact H1 | exact H2].
Defined.

(** X19. With [caseSensitive] on and [natural] off, two names are accepted
    in both orders only when they are the same name: of two different
    names exactly one order is valid, ascending or descending. *)
Theorem case_sensitive_plain_order_is_strict {host : Host} (o : options)
    (a b : jsstring)
    (Hcase : caseSensitive o = true) (Hnatural : natural o = false) :
  (isValidOrder o a b = true /\ isValidOrder o b a = true <-> a = b) /\
  (a <> b -> isValidOrder o a b = negb (isValidOrder o b a)).
Proof.
  assert (Hres : isValidOrder o a b
                 = match order o with Asc => js_le a b | Desc => js_le b a end /\
                 isValidOrder o b a
                 = match order o with Asc => js_le b a | Desc => js_le a b end).
  { rewrite !isValidOrder_resolved, Hcase, Hnatural.
    destruct (order o); split; reflexivity. }
  destruct Hres as [-> ->]. rewrite !js_le_compare.
  rewrite (compareCodeUnits_opp a b).
  pose proof (compareCodeUnits_eq a b) as Heq.
  destruct (compareCodeUnits a b) eqn:E; destruct (order o); simpl;
    split; try split;
    try (intros [? ?]; discriminate);
    try (intros ?; reflexivity);
    try (intros _; apply Heq; reflexivity);
    try (intros ->; split; reflexivity);
    try (intros H; destruct Heq as [_ Heq]; specialize (Heq H); discriminate);
    try (intros H _; exfalso; apply H, Heq; reflexivity).
  all: intros H; exfalso; apply H, Heq; reflexivity.
Qed.

Lemma case_sensitive_plain_order_is_strict_witness :
  @isValidOrder referenceHost defaultOptions (str "Bar") (str "bar")
  = negb (@isValidOrder referenceHost defaultOptions (str "bar") (str "Bar")).
Proof.
  apply (proj2 (@case_sensitive_plain_order_is_strict referenceHost
                  defaultOptions (str "Bar") (str "bar") eq_refl eq_refl)).
  discriminate.
Defined.
